(** * tree-tool: the recursive renderer of [tree.js]

    A shallow embedding of [tree] / [buildTree] (src/tree.js) and the
    properties of the rendered text.

    Conventions of the embedding.
    - JavaScript strings are [string]s holding the UTF-8 bytes of the text;
      ['\n'] is [nl].
    - A path is the list of entry names below the directory [tree] was
      called on; [path.join(currentPath, item)] appends one name (names
      returned by [readdirSync] contain no separator and are never [.] or
      [..], so no normalisation happens in the source either).
    - [node:fs] is a finite tree of nodes that does not change during one
      call; an operation either completes normally or throws an [Error]
      carrying a message.
    - [console.error] is a writer: every call of the builder returns the
      diagnostics it printed next to its value.
    - Recursion of [buildTree] is bounded by the shape of the file system,
      not by a parameter; the model recurses on a fuel counter.  More fuel
      than the height of the directory always produces the result
      ([buildTree_total]) and the result does not depend on how much more
      ([buildTree_fuel]).
    - The caller's side of [tree] (the checks of [dirPath], the header line,
      the sink of [output]) is not part of the renderer and is left out. *)

From Stdlib Require Import String Ascii List ZArith Bool Lia Permutation Sorted.
Import ListNotations.
Local Open Scope string_scope.
Local Open Scope Z_scope.

(** ** Completions: normal return or a thrown [Error] *)

Inductive completion (A : Type) : Type :=
| Normal (value : A)
| Throw (message : string).
Arguments Normal {A} value.
Arguments Throw {A} message.

Definition bindC {A B} (c : completion A) (k : A -> completion B) : completion B :=
  match c with
  | Normal a => k a
  | Throw m => Throw m
  end.

Declare Scope completion_scope.
Delimit Scope completion_scope with completion.
Notation "x <- c ;; k" := (bindC c (fun x => k))
  (at level 61, c at next level, right associativity) : completion_scope.

(** ** The host: [node:fs] and [node:path] *)

Module Host.

Definition path := list string.

(** [path.join(currentPath, item)] *)
Definition join (currentPath : path) (item : string) : path :=
  (currentPath ++ [item])%list.

(** What a path can lead to.  [Denied] is a directory whose listing is
    refused ([readdirSync] throws, [statSync] works); [Broken] is an entry
    that cannot be stat-ed (a dangling link, an entry removed after it was
    listed, a directory without search permission above it). *)
#[warnings="-register-all"] Inductive node : Type :=
| File
| Dir (entries : list (string * node))
| Denied (message : string)
| Broken (message : string).

(** Entries in the order the file system enumerates them. *)
Fixpoint lookup (name : string) (entries : list (string * node)) : option node :=
  match entries with
  | [] => None
  | (n, c) :: rest => if String.eqb n name then Some c else lookup name rest
  end.

Fixpoint resolve (root : node) (p : path) : option node :=
  match p with
  | [] => Some root
  | name :: rest =>
      match root with
      | Dir entries =>
          match lookup name entries with
          | Some c => resolve c rest
          | None => None
          end
      | _ => None
      end
  end.

(** [fs.readdirSync(p)] *)
Definition readdirSync (root : node) (p : path) : completion (list string) :=
  match resolve root p with
  | Some (Dir entries) => Normal (map fst entries)
  | Some File => Throw "ENOTDIR: not a directory, scandir"
  | Some (Denied m) => Throw m
  | Some (Broken m) => Throw m
  | None => Throw "ENOENT: no such file or directory, scandir"
  end.

(** [fs.statSync(p).isDirectory()] *)
Definition statSync_isDirectory (root : node) (p : path) : completion bool :=
  match resolve root p with
  | Some (Dir _) => Normal true
  | Some (Denied _) => Normal true
  | Some File => Normal false
  | Some (Broken m) => Throw m
  | None => Throw "ENOENT: no such file or directory, stat"
  end.

Fixpoint height (n : node) : nat :=
  match n with
  | Dir entries =>
      S ((fix over (l : list (string * node)) : nat :=
            match l with
            | [] => O
            | (_, c) :: rest => Nat.max (height c) (over rest)
            end) entries)
  | _ => O
  end.

(** Height of what [p] leads to; nothing below a path that leads nowhere. *)
Definition heightAt (root : node) (p : path) : nat :=
  match resolve root p with
  | Some n => height n
  | None => O
  end.

End Host.
Import Host.

(** ** [Array.prototype.filter] and [Array.prototype.sort] with callbacks that may throw *)

Section Arrays.
Context {A : Type}.
Local Open Scope completion_scope.

(** [filter] calls the predicate on the elements in index order; the first
    throw ends it. *)
Fixpoint filterC (keep : A -> completion bool) (l : list A) : completion (list A) :=
  match l with
  | [] => Normal []
  | x :: rest =>
      b <- keep x ;;
      r <- filterC keep rest ;;
      Normal (if b : bool then x :: r else r)
  end.

(** [sort(compare)].  ECMAScript fixes the result for a consistent
    comparator (the stable sorted permutation) and leaves the algorithm, so
    the order of the comparator calls, to the engine.  The model is the
    stable insertion sort: every element of an array of two or more takes
    part in a comparison, as in any comparison sort.  When some comparison
    throws, which message surfaces first is the engine's choice. *)
Fixpoint insertC (compare : A -> A -> completion Z) (x : A) (sorted : list A)
  : completion (list A) :=
  match sorted with
  | [] => Normal [x]
  | y :: rest =>
      c <- compare x y ;;
      if c <=? 0 then Normal (x :: y :: rest)
      else (r <- insertC compare x rest ;; Normal (y :: r))
  end.

Fixpoint sortC (compare : A -> A -> completion Z) (l : list A) : completion (list A) :=
  match l with
  | [] => Normal []
  | x :: rest => s <- sortC compare rest ;; insertC compare x s
  end.

(** What [sortC] computes when no comparison throws. *)
Fixpoint insert (c : A -> A -> Z) (x : A) (sorted : list A) : list A :=
  match sorted with
  | [] => [x]
  | y :: rest => if c x y <=? 0 then x :: y :: rest else y :: insert c x rest
  end.

Fixpoint sort (c : A -> A -> Z) (l : list A) : list A :=
  match l with
  | [] => []
  | x :: rest => insert c x (sort c rest)
  end.

End Arrays.

(** ** The builder's effects: diagnostics on [console.error], exceptions, fuel *)

(** [Error reading path ${currentPath}: ${error.message}] *)
Definition diagnostic : Type := path * string.

(** [None]: the fuel ran out.  Otherwise the completion and what was
    printed on [console.error] on the way, a throw included. *)
Definition M (A : Type) : Type := option (completion A * list diagnostic).

Definition ret {A} (a : A) : M A := Some (Normal a, []).

Definition bind {A B} (m : M A) (k : A -> M B) : M B :=
  match m with
  | None => None
  | Some (Throw e, w) => Some (Throw e, w)
  | Some (Normal a, w) =>
      match k a with
      | None => None
      | Some (r, w') => Some (r, (w ++ w')%list)
      end
  end.

(** A call into the host: no output, may throw. *)
Definition host {A} (c : completion A) : M A := Some (c, []).

Definition console_error (d : diagnostic) : M unit := Some (Normal tt, [d]).

(** [try { body } catch (error) { handler(error.message) }] *)
Definition try_catch {A} (body : M A) (handler : string -> M A) : M A :=
  match body with
  | None => None
  | Some (Normal a, w) => Some (Normal a, w)
  | Some (Throw e, w) =>
      match handler e with
      | None => None
      | Some (r, w') => Some (r, (w ++ w')%list)
      end
  end.

Declare Scope builder_scope.
Delimit Scope builder_scope with builder.
Notation "x <- c ;; k" := (bind c (fun x => k))
  (at level 61, c at next level, right associativity) : builder_scope.
Notation "c ;; k" := (bind c (fun _ => k))
  (at level 61, right associativity) : builder_scope.

(** [sortedItems.forEach((item, index) => ...)] around the local [result]
    the callback appends to. *)
Fixpoint forEach (callback : string -> string -> nat -> M string)
    (items : list string) (index : nat) (result : string) : M string :=
  match items with
  | [] => ret result
  | item :: rest =>
      bind (callback result item index) (forEach callback rest (S index))
  end.

(** ** [tree] *)

Definition nl : string := String (ascii_of_nat 10) EmptyString.

Record symbolSet : Type := {
  vertical : string;
  branch : string;
  corner : string;
  space : string
}.

(** tree.js 53-65 *)
Definition symbolsFor (useAscii : bool) : symbolSet :=
  if useAscii
  then {| vertical := "|   "; branch := "|-- "; corner := "\-- "; space := "    " |}
  else {| vertical := "│   "; branch := "├── "; corner := "└── "; space := "    " |}.

Section Tree.

(** The collator behind [a.localeCompare(b, 'en')]. *)
Variable localeCompare : string -> string -> Z.

(** The file system below the directory [tree] is called on, and the
    arguments of [tree]. *)
Variable root : node.
Variable showFiles : bool.
Variable useAscii : bool.
Variable maxDepth : Z.

Definition symbols : symbolSet := symbolsFor useAscii.

(** tree.js 76: [maxDepth !== -1 && depth > maxDepth] *)
Definition pruned (depth : Z) : bool :=
  negb (maxDepth =? -1) && (depth >? maxDepth).

(** tree.js 85-92, the callback of [filter] *)
Definition keepItem (currentPath : path) (item : string) : completion bool :=
  if negb showFiles
  then statSync_isDirectory root (join currentPath item)
  else Normal true.

(** tree.js 93-102, the comparator *)
Definition compareItems (currentPath : path) (a b : string) : completion Z :=
  (aIsDir <- statSync_isDirectory root (join currentPath a) ;;
   bIsDir <- statSync_isDirectory root (join currentPath b) ;;
   if aIsDir && negb bIsDir then Normal (-1)
   else if negb aIsDir && bIsDir then Normal 1
   else Normal (localeCompare a b))%completion.

(** tree.js 81-102: [items] and [sortedItems] *)
Definition sortedItemsOf (currentPath : path) : completion (list string) :=
  (items <- readdirSync root currentPath ;;
   kept <- filterC (keepItem currentPath) items ;;
   sortC (compareItems currentPath) kept)%completion.

(** tree.js 108-121, the callback of [forEach]; [rec] is [buildTree]. *)
Definition processItem (rec : path -> string -> bool -> Z -> M string)
    (currentPath : path) (prefix : string) (depth : Z) (length : nat)
    (result : string) (item : string) (index : nat) : M string :=
  (let itemPath := join currentPath item in
   isDirectory <- host (statSync_isDirectory root itemPath) ;;
   let isLastItem := Nat.eqb index (length - 1) in
   let connector := if isLastItem then corner symbols else branch symbols in
   let result := result ++ prefix ++ connector ++ item
                   ++ (if isDirectory : bool then "/" else "") ++ nl in
   if isDirectory
   then
     let newPrefix := prefix ++ (if isLastItem then space symbols else vertical symbols) in
     sub <- rec itemPath newPrefix isLastItem (depth + 1) ;;
     ret (result ++ sub)
   else ret result)%builder.

(** tree.js 75-134 *)
Fixpoint buildTree (fuel : nat) (currentPath : path) (prefix : string)
    (isLast : bool) (depth : Z) : M string :=
  match fuel with
  | O => None
  | S fuel =>
      if pruned depth then ret ""
      else
        try_catch
          (sortedItems <- host (sortedItemsOf currentPath) ;;
           forEach
             (processItem (buildTree fuel) currentPath prefix depth
                (List.length sortedItems))
             sortedItems O "")%builder
          (fun message =>
             console_error (currentPath, message) ;;
             ret "")%builder
  end.

(** tree.js 161: [buildTree(absolutePath)], with the defaults
    [prefix = ''], [isLast = true], [depth = 0]. *)
Definition treeStructure : M string :=
  buildTree (S (height root)) [] "" true 0.

End Tree.

(** ** A collator for the examples

    [localeCompare] is the host's collator, not code of the repository, and
    stays a parameter of the theorems.  The examples run with [En], a model
    of the [en] collation on printable ASCII. *)

Module En.

(** Whitespace, punctuation, symbols and currency of ASCII in collation
    order, as character codes. *)
Definition beforeDigits : list nat :=
  [9; 10; 11; 12; 13; 32; 95; 45; 44; 59; 58; 33; 63; 46; 39; 34; 40; 41;
   91; 93; 123; 125; 64; 42; 47; 92; 38; 35; 37; 96; 94; 43; 60; 61; 62;
   124; 126; 36]%nat.

Fixpoint indexOf (n : nat) (l : list nat) (i : nat) : option nat :=
  match l with
  | [] => None
  | x :: rest => if Nat.eqb x n then Some i else indexOf n rest (S i)
  end.

Definition isUpper (n : nat) : bool := (Nat.leb 65 n && Nat.leb n 90)%nat.
Definition isLower (n : nat) : bool := (Nat.leb 97 n && Nat.leb n 122)%nat.
Definition isDigit (n : nat) : bool := (Nat.leb 48 n && Nat.leb n 57)%nat.

Definition primary (c : ascii) : nat :=
  let n := nat_of_ascii c in
  if isDigit n then (100 + (n - 48))%nat
  else if isLower n then (200 + (n - 97))%nat
  else if isUpper n then (200 + (n - 65))%nat
  else match indexOf n beforeDigits O with
       | Some i => i
       | None => (300 + n)%nat
       end.

Fixpoint comparePrimary (a b : string) : Z :=
  match a, b with
  | EmptyString, EmptyString => 0
  | EmptyString, String _ _ => -1
  | String _ _, EmptyString => 1
  | String x a', String y b' =>
      if Nat.ltb (primary x) (primary y) then -1
      else if Nat.ltb (primary y) (primary x) then 1
      else comparePrimary a' b'
  end.

(** Called on strings of equal primary weights: the first difference of
    case decides, lower case first. *)
Fixpoint compareCase (a b : string) : Z :=
  match a, b with
  | String x a', String y b' =>
      let ux := isUpper (nat_of_ascii x) in
      let uy := isUpper (nat_of_ascii y) in
      if negb ux && uy then -1
      else if ux && negb uy then 1
      else compareCase a' b'
  | _, _ => 0
  end.

(** Modelled from the spec: [a.localeCompare(b, 'en')], the locale-aware,
    case-respecting comparison of the host ("punctuation and case rules
    follow standard alphabetic comparison, not raw byte order").  Strings
    are compared by the alphabetic weights of their characters first
    (punctuation before digits before letters, case ignored), and strings
    that agree there by case, lower case first.  Outside printable ASCII the
    model is not the collator: other bytes rank after the letters by
    value. *)
Definition localeCompare (a b : string) : Z :=
  let c := comparePrimary a b in
  if c =? 0 then compareCase a b else c.

End En.

(** The canonical decomposition of the precomposed [U+00E9]. *)
Fixpoint decompose (s : string) : string :=
  match s with
  | EmptyString => EmptyString
  | String c tail =>
      match tail with
      | String c' rest =>
          if (Nat.eqb (nat_of_ascii c) 195 && Nat.eqb (nat_of_ascii c') 169)%bool
          then String "e" (String (ascii_of_nat 204) (String (ascii_of_nat 129)
                 (decompose rest)))
          else String c (decompose tail)
      | EmptyString => String c EmptyString
      end
  end.

(** Modelled from the spec: the locale-aware comparison of the host on
    names that hold the letter [U+00E9] precomposed or decomposed.  The
    collation compares canonically equivalent strings as equal, so both
    sides are decomposed before [En.localeCompare] compares them. *)
Definition canonicalCompare (a b : string) : Z :=
  En.localeCompare (decompose a) (decompose b).

(** ** Vocabulary of the statements *)

(** The text a call returned and what it printed. *)
Definition outputOf (m : M string) : string :=
  match m with
  | Some (Normal s, _) => s
  | _ => ""
  end.

Definition stderrOf {A} (m : M A) : list diagnostic :=
  match m with
  | Some (_, w) => w
  | None => []
  end.

(** Occurrences of a character, and of the line terminator. *)
Fixpoint occurrences (c : ascii) (s : string) : nat :=
  match s with
  | EmptyString => O
  | String x rest => ((if Ascii.eqb x c then 1 else 0) + occurrences c rest)%nat
  end.

Definition countLines (s : string) : nat := occurrences (ascii_of_nat 10) s.

(** Text drawn with one glyph set below [prefix]: a sequence of blocks, each
    the line of an entry ([prefix], a connector of the set, a name from
    [names], ['/'] or nothing, the terminator) followed by text drawn
    below [prefix] extended by an indent of the set. *)
Inductive drawn (s : symbolSet) (names : string -> Prop) : string -> string -> Prop :=
| drawn_nothing prefix : drawn s names prefix ""
| drawn_entry prefix connector indent name suffix below rest :
    connector = corner s \/ connector = branch s ->
    indent = space s \/ indent = vertical s ->
    suffix = "/" \/ suffix = "" ->
    names name ->
    drawn s names (prefix ++ indent) below ->
    drawn s names prefix rest ->
    drawn s names prefix
      (prefix ++ connector ++ name ++ suffix ++ nl ++ below ++ rest).

(** The four glyphs of a set, and the characters only the other set has. *)
Definition glyphText (s : symbolSet) : string :=
  vertical s ++ branch s ++ corner s ++ space s.

Definition foreignTo (useAscii : bool) (c : ascii) : bool :=
  Nat.ltb 0 (occurrences c (glyphText (symbolsFor (negb useAscii))))
  && Nat.eqb (occurrences c (glyphText (symbolsFor useAscii))) 0.

(** A name some directory of the file system enumerates. *)
Definition listedName (root : node) (name : string) : Prop :=
  exists p items, readdirSync root p = Normal items /\ In name items.

Section Statements.

Variable localeCompare : string -> string -> Z.
Variable root : node.
Variable showFiles : bool.
Variable useAscii : bool.
Variable maxDepth : Z.

(** The kind [statSync] reports for an entry of [p]. *)
Definition isDir (p : path) (item : string) : bool :=
  match statSync_isDirectory root (join p item) with
  | Normal b => b
  | Throw _ => false
  end.

Definition statable (p : path) (item : string) : Prop :=
  exists b, statSync_isDirectory root (join p item) = Normal b.

(** The callbacks of [filter] and [sort] on entries that can be stat-ed. *)
Definition keeps (p : path) (item : string) : bool :=
  if negb showFiles then isDir p item else true.

Definition orderOf (p : path) (a b : string) : Z :=
  if isDir p a && negb (isDir p b) then -1
  else if negb (isDir p a) && isDir p b then 1
  else localeCompare a b.

(** The order of the display: directories before files, entries of one
    kind by the collator. *)
Definition displayedBefore (p : path) (a b : string) : Prop :=
  (isDir p a = true /\ isDir p b = false)
  \/ (isDir p a = isDir p b /\ localeCompare a b <= 0).

(** The collator is a total order on [names]: any two names compare one
    way or the other, only equal names both ways, transitively. *)
Definition collatesOn (names : list string) : bool :=
  forallb (fun a =>
    forallb (fun b =>
      ((localeCompare a b <=? 0) || (localeCompare b a <=? 0))
      && implb ((localeCompare a b <=? 0) && (localeCompare b a <=? 0))
               (String.eqb a b)
      && forallb (fun c =>
           implb ((localeCompare a b <=? 0) && (localeCompare b c <=? 0))
                 (localeCompare a c <=? 0)) names) names) names.

(** The [statSync] of every displayed entry, in display order (tree.js
    109, once per callback). *)
Fixpoint statAll (p : path) (items : list string) : completion (list (string * bool)) :=
  match items with
  | [] => Normal []
  | item :: rest =>
      (b <- statSync_isDirectory root (join p item) ;;
       r <- statAll p rest ;;
       Normal ((item, b) :: r))%completion
  end.

(** What one directory contributes: its sorted entries with their kinds,
    or the first failure of the host. *)
Definition listing (p : path) : completion (list (string * bool)) :=
  (l <- sortedItemsOf localeCompare root showFiles p ;; statAll p l)%completion.

(** The line of an entry, the prefix below it, and the call on it. *)
Definition entryLine (prefix : string) (isLastSibling : bool)
    (name : string) (isDirectory : bool) : string :=
  prefix ++ (if isLastSibling then corner (symbols useAscii) else branch (symbols useAscii))
    ++ name ++ (if isDirectory then "/" else "") ++ nl.

(** The lines of a sibling list alone, nothing below them. *)
Fixpoint linesFrom (prefix : string) (n index : nat) (es : list (string * bool)) : string :=
  match es with
  | [] => ""
  | e :: rest =>
      entryLine prefix (Nat.eqb index (n - 1)) (fst e) (snd e)
        ++ linesFrom prefix n (S index) rest
  end.

Definition childPrefix (prefix : string) (isLastSibling : bool) : string :=
  prefix ++ (if isLastSibling then space (symbols useAscii) else vertical (symbols useAscii)).

Definition subtree (fuel : nat) (p : path) (prefix : string) (depth : Z)
    (isLastSibling : bool) (e : string * bool) : M string :=
  if snd e
  then buildTree localeCompare root showFiles useAscii maxDepth fuel
         (join p (fst e)) (childPrefix prefix isLastSibling) isLastSibling (depth + 1)
  else ret "".

(** Entries [index ..] of a sibling list of [n]: each line followed by the
    text of its subtree. *)
Fixpoint renderedFrom (fuel : nat) (p : path) (prefix : string) (depth : Z)
    (n index : nat) (es : list (string * bool)) : string :=
  match es with
  | [] => ""
  | e :: rest =>
      let isLastSibling := Nat.eqb index (n - 1) in
      entryLine prefix isLastSibling (fst e) (snd e)
        ++ outputOf (subtree fuel p prefix depth isLastSibling e)
        ++ renderedFrom fuel p prefix depth n (S index) rest
  end.

Fixpoint printedFrom (fuel : nat) (p : path) (prefix : string) (depth : Z)
    (n index : nat) (es : list (string * bool)) : list diagnostic :=
  match es with
  | [] => []
  | e :: rest =>
      let isLastSibling := Nat.eqb index (n - 1) in
      (stderrOf (subtree fuel p prefix depth isLastSibling e)
         ++ printedFrom fuel p prefix depth n (S index) rest)%list
  end.

(** Lines emitted below the directory children of a sibling list. *)
Fixpoint subtreeLines (fuel : nat) (p : path) (prefix : string) (depth : Z)
    (n index : nat) (es : list (string * bool)) : nat :=
  match es with
  | [] => O
  | e :: rest =>
      let isLastSibling := Nat.eqb index (n - 1) in
      (countLines (outputOf (subtree fuel p prefix depth isLastSibling e))
       + subtreeLines fuel p prefix depth n (S index) rest)%nat
  end.

End Statements.

(** ** The rest of [tree.js]: the module test, the sink, [tree] and the options

    [process.argv], [import.meta.url], [path.resolve] and the result of
    [util.parseArgs] are the host's and come in as arguments.  The sink of
    [output] is a store that tells, path by path, whether a file is there
    and whether the path can be written; it is kept apart from the
    directory tree the builder reads, which is the tree the builder finds
    at tree.js 161. *)

Definition backslash : ascii := ascii_of_nat 92.

(** [s.replace(/\\/g, '/')] *)
Fixpoint replaceBackslashes (s : string) : string :=
  match s with
  | EmptyString => EmptyString
  | String c rest =>
      String (if Ascii.eqb c backslash then "/"%char else c) (replaceBackslashes rest)
  end.

(** [s.startsWith(start)] and [s.endsWith(suffix)] *)
Definition startsWith (s start : string) : bool := String.prefix start s.

Fixpoint endsWith (s suffix : string) : bool :=
  if String.eqb s suffix then true
  else match s with
       | EmptyString => false
       | String _ rest => endsWith rest suffix
       end.

(** tree.js 7-18, on [process.argv[1]] *)
Definition getModuleFilename (argv1 : string) : string :=
  let scriptName := replaceBackslashes argv1 in
  let scriptName :=
    if negb (endsWith scriptName ".js") then scriptName ++ ".js" else scriptName in
  let scriptName :=
    if negb (startsWith scriptName "file:///") then "file:///" ++ scriptName
    else scriptName in
  scriptName.

(** tree.js 20-21, on [import.meta.url] and [process.argv[1]] *)
Definition isMainModule (url argv1 : string) : bool :=
  endsWith url (getModuleFilename argv1).

(** What is printed on [console.error]: the two messages of [tree] and the
    diagnostics of the builder. *)
Inductive errorLine : Type :=
| PathNotFound (dirPath : string)
| NotADirectory (dirPath : string)
| ErrorReadingPath (d : diagnostic).

(** What the sink holds at a path: nothing (and a file can be created
    there), a regular file that can be appended to and removed, or a path
    the file system refuses to write or remove with an error (a directory,
    a path whose parent directory is missing, a place without permission);
    [present] tells whether [existsSync] sees something there. *)
Inductive fileState : Type :=
| NoFile
| RegularFile (content : string)
| Unwritable (present : bool) (message : string).

(** The sink by path, and the calls of [console.log] and [console.error]
    in order (each call prints its text and a newline). *)
Record world : Type := {
  files : string -> fileState;
  stdout : list string;
  stderr : list errorLine
}.

(** How a call of [tree] ends: it returns, the process exits, or an
    exception leaves [tree] (tree.js has no [try] around the sink). *)
Inductive outcome : Type :=
| Returned
| Exited (code : Z)
| Thrown (message : string)
| Unfinished.

Definition console_log (text : string) (w : world) : world :=
  {| files := files w; stdout := (stdout w ++ [text])%list; stderr := stderr w |}.

Definition console_errors (lines : list errorLine) (w : world) : world :=
  {| files := files w; stdout := stdout w; stderr := (stderr w ++ lines)%list |}.

Definition setFile (file : string) (state : fileState) (w : world) : world :=
  {| files := fun f => if String.eqb f file then state else files w f;
     stdout := stdout w;
     stderr := stderr w |}.

(** [fs.existsSync(outputFile)] *)
Definition existsSyncFile (file : string) (w : world) : bool :=
  match files w file with
  | NoFile => false
  | RegularFile _ => true
  | Unwritable present _ => present
  end.

(** [fs.appendFileSync(file, data)]: creates the file when it is missing,
    throws where the path cannot be written. *)
Definition appendFileSync (file data : string) (w : world) : completion world :=
  match files w file with
  | NoFile => Normal (setFile file (RegularFile data) w)
  | RegularFile old => Normal (setFile file (RegularFile (old ++ data)) w)
  | Unwritable _ message => Throw message
  end.

(** [fs.unlinkSync(file)]: throws where the path cannot be removed. *)
Definition unlinkSync (file : string) (w : world) : completion world :=
  match files w file with
  | RegularFile _ => Normal (setFile file NoFile w)
  | Unwritable _ message => Throw message
  | NoFile => Throw "ENOENT: no such file or directory, unlink"
  end.

(** The file [if (outputFile)] selects: [null] and [''] select none. *)
Definition sinkOf (outputFile : option string) : option string :=
  match outputFile with
  | Some EmptyString => None
  | Some file => Some file
  | None => None
  end.

(** tree.js 28-34 *)
Definition output (text : string) (outputFile : option string) (w : world)
  : completion world :=
  match sinkOf outputFile with
  | Some file => appendFileSync file (text ++ nl) w
  | None => Normal (console_log text w)
  end.

Record treeOptions : Type := {
  optShowFiles : bool;
  optUseAscii : bool;
  optOutputFile : option string
}.

(** [fs.existsSync(dirPath)]: false also where [statSync] would throw. *)
Definition existsSync (here : option node) : bool :=
  match here with
  | None | Some (Broken _) => false
  | Some _ => true
  end.

(** [fs.statSync(dirPath).isDirectory()] for a path that exists. *)
Definition isDirectoryNode (n : node) : bool :=
  match n with
  | Dir _ | Denied _ => true
  | _ => false
  end.

Section TreeCall.

Variable localeCompare : string -> string -> Z.

(** [path.resolve] *)
Variable path_resolve : string -> string.

(** tree.js 148-152 *)
Definition removeOutputFile (outputFile : option string) (w : world) : completion world :=
  match sinkOf outputFile with
  | Some file => if existsSyncFile file w then unlinkSync file w else Normal w
  | None => Normal w
  end.

(** tree.js 45-163; [here] is what [dirPath] leads to.  An exception of the
    sink leaves [tree] with the world as it is then.  The unused [drive]
    and [displayPath] (tree.js 156-157) are left out. *)
Definition tree (here : option node) (dirPath : string) (options : treeOptions)
    (maxDepth : Z) (w : world) : world * outcome :=
  match here with
  | Some root =>
      if negb (existsSync here)
      then (console_errors [PathNotFound dirPath] w, Exited 1)
      else if negb (isDirectoryNode root)
      then (console_errors [NotADirectory dirPath] w, Exited 1)
      else
        let outputFile := optOutputFile options in
        match removeOutputFile outputFile w with
        | Throw message => (w, Thrown message)
        | Normal w =>
            let absolutePath := path_resolve dirPath in
            match output (replaceBackslashes absolutePath) outputFile w with
            | Throw message => (w, Thrown message)
            | Normal w =>
                match treeStructure localeCompare root (optShowFiles options)
                        (optUseAscii options) maxDepth with
                | Some (Normal text, diagnostics) =>
                    let w := console_errors (map ErrorReadingPath diagnostics) w in
                    match output text outputFile w with
                    | Throw message => (w, Thrown message)
                    | Normal w => (w, Returned)
                    end
                | _ => (w, Unfinished)
                end
            end
        end
  | None => (console_errors [PathNotFound dirPath] w, Exited 1)
  end.

End TreeCall.

(** The [values] of [util.parseArgs] for the options of tree.js 168-196:
    a flag is [true] or absent, a string option a string or absent. *)
Record parsedValues : Type := {
  val_f : option bool;
  val_files : option bool;
  val_a : option bool;
  val_ascii : option bool;
  val_o : option string;
  val_output : option string;
  val_h : option bool;
  val_help : option bool
}.

(** [x || y] on values that may be absent. *)
Definition orFlag (x y : option bool) : option bool :=
  match x with
  | Some true => x
  | _ => y
  end.

Definition orString (x y : option string) : option string :=
  match sinkOf x with
  | Some _ => x
  | None => y
  end.

Definition flagOrFalse (x : option bool) : bool :=
  match x with
  | Some true => true
  | _ => false
  end.

(** tree.js 201-214: [None] is [showHelp(); process.exit(0)]. *)
Definition parseCommandLineArgsWithUtil (values : parsedValues)
    (positionals : list string) : option (string * treeOptions) :=
  if flagOrFalse (orFlag (val_h values) (val_help values)) then None
  else
    let dirPath :=
      match positionals with
      | first :: _ => if String.eqb first "" then "." else first
      | [] => "."
      end in
    Some (dirPath,
          {| optShowFiles := flagOrFalse (orFlag (val_f values) (val_files values));
             optUseAscii := flagOrFalse (orFlag (val_a values) (val_ascii values));
             optOutputFile :=
               match orString (val_o values) (val_output values) with
               | Some EmptyString => None
               | other => other
               end |}).

(** ** The first [parseArgs] (src/unnamed/part_001, 186-225) *)

Module Legacy.

(** [toLowerCase] on ASCII; no other character lowers to one of the letters
    the options are compared with. *)
Definition lowerChar (c : ascii) : ascii :=
  let n := nat_of_ascii c in
  if (Nat.leb 65 n && Nat.leb n 90)%bool then ascii_of_nat (n + 32) else c.

Fixpoint toLowerCase (s : string) : string :=
  match s with
  | EmptyString => EmptyString
  | String c rest => String (lowerChar c) (toLowerCase rest)
  end.

(** [s.replace(/[/-]/g, "")] *)
Fixpoint dropSlashesAndDashes (s : string) : string :=
  match s with
  | EmptyString => EmptyString
  | String c rest =>
      if (Ascii.eqb c "/" || Ascii.eqb c "-")%bool then dropSlashesAndDashes rest
      else String c (dropSlashesAndDashes rest)
  end.

Definition isOption (arg : string) : bool :=
  startsWith arg "/" || startsWith arg "-".

Definition optionOf (arg : string) : string :=
  dropSlashesAndDashes (toLowerCase arg).

Inductive parsed : Type :=
| Parsed (dirPath : string) (showFiles useAscii : bool)
| HelpShown
| UnknownParameter (arg : string).

(** The loop of part_001 194-222 from index [i] on; [HelpShown] is
    [showHelp(); process.exit(0)], [UnknownParameter] the error message,
    the help and [process.exit(1)]. *)
Fixpoint parseLoop (args : list string) (dirPath : string)
    (showFiles useAscii : bool) : parsed :=
  match args with
  | [] => Parsed dirPath showFiles useAscii
  | arg :: rest =>
      if isOption arg
      then
        let option := optionOf arg in
        if String.eqb option "f" then parseLoop rest dirPath true useAscii
        else if String.eqb option "a" then parseLoop rest dirPath showFiles true
        else if (String.eqb option "?" || String.eqb option "h"
                 || String.eqb option "help")%bool
        then HelpShown
        else UnknownParameter arg
      else
        if (String.eqb dirPath "" || String.eqb dirPath ".")%bool
        then parseLoop rest arg showFiles useAscii
        else parseLoop rest dirPath showFiles useAscii
  end.

Definition parseArgs (argv : list string) : parsed :=
  parseLoop (skipn 2 argv) "." false false.

(** Arguments the loop passes over: a directory, or an option that reads
    [f] or [a]. *)
Definition selects (letter arg : string) : bool :=
  isOption arg && String.eqb (optionOf arg) letter.

Definition accepted (arg : string) : bool :=
  negb (isOption arg) || selects "f" arg || selects "a" arg.

End Legacy.

(** ** The directories of the examples *)

Definition unlines (lines : list string) : string :=
  fold_right (fun line text => line ++ nl ++ text) "" lines.

(** The four entries of the sort example, in two enumeration orders. *)
Definition fourEntries : list (string * node) :=
  [("b.txt", File); ("A", Dir []); ("a.txt", File); ("B", Dir [])].

(** [my-app/] of the README. *)
Definition myApp : node :=
  Dir [("src", Dir [("components", Dir [("Header.js", File); ("Footer.js", File)]);
                    ("utils", Dir []);
                    ("index.js", File)]);
       ("public", Dir []);
       ("package.json", File);
       ("README.md", File)].

(** The body of the sample the README prints under [my-app/]. *)
Definition documentedSample : string :=
  unlines ["├── src/";
           "│   ├── components/";
           "│   │   ├── Header.js";
           "│   │   └── Footer.js";
           "│   ├── utils/";
           "│   └── index.js";
           "├── public/";
           "├── package.json";
           "└── README.md"].

(** What the builder returns for it. *)
Definition renderedSample : string :=
  unlines ["├── public/";
           "├── src/";
           "│   ├── components/";
           "│   │   ├── Footer.js";
           "│   │   └── Header.js";
           "│   ├── utils/";
           "│   └── index.js";
           "├── package.json";
           "└── README.md"].

(** One subdirectory that has a child. *)
Definition nested : node := Dir [("sub", Dir [("x", File)])].

(** Three children, one of them a directory that cannot be listed. *)
Definition threeChildren : node :=
  Dir [("a", Dir [("x", File)]);
       ("locked", Denied "EACCES: permission denied, scandir");
       ("z", File)].


Definition onlyFiles : node := Dir [("a.txt", File); ("b.txt", File)].

(** A script path as Windows hands it over. *)
Definition windowsScript : string :=
  "C:" ++ String backslash "tools" ++ String backslash "tree.js".

(** A sink that holds one file. *)
Definition oneFile (file content : string) : world :=
  {| files := fun f => if String.eqb f file then RegularFile content else NoFile;
     stdout := [];
     stderr := [] |}.


(** Two names the [en] collation does not tell apart: [é.txt] with the
    letter precomposed (U+00E9, bytes 195 169) and decomposed ([e] followed
    by U+0301, bytes 204 129). *)
Definition precomposedName : string :=
  String (ascii_of_nat 195) (String (ascii_of_nat 169) ".txt").

Definition decomposedName : string :=
  String "e" (String (ascii_of_nat 204) (String (ascii_of_nat 129) ".txt")).

(** * Facts *)

(** ** Arrays *)

Section ArrayFacts.
Context {A : Type}.

Lemma filterC_incl (keep : A -> completion bool) l r :
  filterC keep l = Normal r -> incl r l.
Proof.
  revert r; induction l as [|x l IH]; simpl; intros r H.
  - inversion H; subst; apply incl_refl.
  - destruct (keep x) as [b|]; simpl in H; [|discriminate].
    destruct (filterC keep l) as [r'|]; simpl in H; [|discriminate].
    inversion H; subst; clear H.
    specialize (IH r' eq_refl).
    destruct b.
    + apply incl_cons; [now left | now apply incl_tl].
    + now apply incl_tl.
Qed.

Lemma filterC_called (keep : A -> completion bool) l r :
  filterC keep l = Normal r -> forall x, In x l -> exists b, keep x = Normal b.
Proof.
  revert r; induction l as [|x l IH]; simpl; intros r H y Hy; [contradiction|].
  destruct (keep x) as [b|] eqn:Ek; simpl in H; [|discriminate].
  destruct (filterC keep l) as [r'|]; simpl in H; [|discriminate].
  destruct Hy as [<-|Hy]; [eauto | eapply IH; eauto].
Qed.

Lemma filterC_pure (keep : A -> completion bool) (k : A -> bool) l :
  (forall x, In x l -> keep x = Normal (k x)) ->
  filterC keep l = Normal (filter k l).
Proof.
  induction l as [|x l IH]; simpl; intros H; [reflexivity|].
  rewrite (H x (or_introl eq_refl)); simpl.
  rewrite IH by (intros; apply H; now right); simpl.
  now destruct (k x).
Qed.

Lemma insertC_perm (compare : A -> A -> completion Z) x s r :
  insertC compare x s = Normal r -> Permutation r (x :: s).
Proof.
  revert r; induction s as [|y s IH]; simpl; intros r H.
  - inversion H; subst; apply Permutation_refl.
  - destruct (compare x y) as [c|]; simpl in H; [|discriminate].
    destruct (c <=? 0).
    + inversion H; subst; apply Permutation_refl.
    + destruct (insertC compare x s) as [r'|]; simpl in H; [|discriminate].
      inversion H; subst; clear H.
      eapply Permutation_trans; [apply perm_skip, IH; reflexivity | apply perm_swap].
Qed.

Lemma sortC_perm (compare : A -> A -> completion Z) l s :
  sortC compare l = Normal s -> Permutation s l.
Proof.
  revert s; induction l as [|x l IH]; simpl; intros s H.
  - inversion H; subst; apply Permutation_refl.
  - destruct (sortC compare l) as [s'|]; simpl in H; [|discriminate].
    eapply Permutation_trans; [eapply insertC_perm; eassumption|].
    apply perm_skip, IH; reflexivity.
Qed.

(** Every element of an array of two or more is handed to the comparator
    in a call that returned. *)
Lemma sortC_compared (compare : A -> A -> completion Z) (P : A -> Prop) :
  (forall a b c, compare a b = Normal c -> P a /\ P b) ->
  forall l s, sortC compare l = Normal s -> (2 <= List.length l)%nat -> Forall P l.
Proof.
  intros HP; induction l as [|x l IH]; simpl; intros s H Hlen; [lia|].
  destruct (sortC compare l) as [s'|] eqn:Es; simpl in H; [|discriminate].
  pose proof (sortC_perm _ _ _ Es) as Hperm.
  destruct s' as [|y s'].
  - apply Permutation_length in Hperm; simpl in Hperm; lia.
  - simpl in H. destruct (compare x y) as [c|] eqn:Ec; simpl in H; [|discriminate].
    destruct (HP _ _ _ Ec) as [Px Py].
    constructor; [exact Px|].
    destruct l as [|z [|z' l]].
    + simpl in Hlen; lia.
    + apply Permutation_sym, Permutation_length_1_inv in Hperm.
      inversion Hperm; subst.
      constructor; [exact Py | constructor].
    + eapply IH; [reflexivity | simpl; lia].
Qed.

Lemma insertC_pure (compare : A -> A -> completion Z) (c : A -> A -> Z) x s :
  (forall y, In y s -> compare x y = Normal (c x y)) ->
  insertC compare x s = Normal (insert c x s).
Proof.
  induction s as [|y s IH]; simpl; intros H; [reflexivity|].
  rewrite (H y (or_introl eq_refl)); simpl.
  destruct (c x y <=? 0); [reflexivity|].
  rewrite IH by (intros; apply H; now right). reflexivity.
Qed.

Lemma insert_perm (c : A -> A -> Z) x s : Permutation (insert c x s) (x :: s).
Proof.
  induction s as [|y s IH]; simpl; [apply Permutation_refl|].
  destruct (c x y <=? 0); [apply Permutation_refl|].
  eapply Permutation_trans; [apply perm_skip, IH | apply perm_swap].
Qed.

Lemma sort_perm (c : A -> A -> Z) l : Permutation (sort c l) l.
Proof.
  induction l as [|x l IH]; simpl; [apply Permutation_refl|].
  eapply Permutation_trans; [apply insert_perm | now apply perm_skip].
Qed.

Lemma sortC_pure (compare : A -> A -> completion Z) (c : A -> A -> Z) l :
  (forall a b, In a l -> In b l -> compare a b = Normal (c a b)) ->
  sortC compare l = Normal (sort c l).
Proof.
  induction l as [|x l IH]; simpl; intros H; [reflexivity|].
  rewrite IH by (intros; apply H; now right). simpl.
  apply insertC_pure. intros y Hy. apply H; [now left | right].
  eapply Permutation_in; [apply sort_perm | exact Hy].
Qed.

Section Order.
Variable c : A -> A -> Z.
Let le (a b : A) : Prop := c a b <= 0.

Lemma insert_sorted x s :
  (forall a b, In a (x :: s) -> In b (x :: s) -> le a b \/ le b a) ->
  (forall a b d, In a (x :: s) -> In b (x :: s) -> In d (x :: s) ->
                 le a b -> le b d -> le a d) ->
  StronglySorted le s -> StronglySorted le (insert c x s).
Proof.
  intros Htot Htrans; induction s as [|y s IH]; simpl; intros Hs.
  - constructor; constructor.
  - inversion Hs as [|? ? Hs' Hy]; subst.
    destruct (c x y <=? 0) eqn:E.
    + apply Z.leb_le in E. constructor; [exact Hs|].
      constructor; [exact E|].
      rewrite Forall_forall in Hy |- *. intros z Hz.
      apply (Htrans x y z); simpl; auto.
    + apply Z.leb_gt in E.
      assert (Hyx : le y x).
      { destruct (Htot x y) as [H|H]; simpl; auto. unfold le in H. lia. }
      constructor.
      * apply IH; auto.
        -- intros a b Ha Hb. apply Htot; simpl in *; tauto.
        -- intros a b d Ha Hb Hd Hab Hbd.
           apply (Htrans a b d); simpl in *; tauto.
      * rewrite Forall_forall in Hy |- *. intros z Hz.
        apply (Permutation_in _ (insert_perm c x s)) in Hz.
        destruct Hz as [<-|Hz]; auto.
Qed.

Lemma sort_sorted l :
  (forall a b, In a l -> In b l -> le a b \/ le b a) ->
  (forall a b d, In a l -> In b l -> In d l -> le a b -> le b d -> le a d) ->
  StronglySorted le (sort c l).
Proof.
  induction l as [|x l IH]; simpl; intros Htot Htrans; [constructor|].
  assert (Hin : forall a, In a (x :: sort c l) -> In a (x :: l)).
  { intros a [<-|Ha]; [now left | right].
    eapply Permutation_in; [apply sort_perm | exact Ha]. }
  apply insert_sorted.
  - intros a b Ha Hb. apply Htot; apply Hin; assumption.
  - intros a b d Ha Hb Hd Hab Hbd.
    apply (Htrans a b d); try assumption; apply Hin; assumption.
  - apply IH.
    + intros a b Ha Hb. apply Htot; now right.
    + intros a b d Ha Hb Hd Hab Hbd. apply (Htrans a b d); auto; now right.
Qed.
End Order.

(** Two sorted arrangements of the same elements coincide when the order
    tells the elements apart. *)
Lemma sorted_unique (le : A -> A -> Prop) l :
  (forall a b, In a l -> In b l -> le a b -> le b a -> a = b) ->
  forall l', StronglySorted le l -> StronglySorted le l' -> Permutation l l' -> l = l'.
Proof.
  induction l as [|x l IH]; intros Hanti l' Hl Hl' Hperm.
  - apply Permutation_nil in Hperm; now subst.
  - destruct l' as [|x' l'].
    + apply Permutation_sym, Permutation_nil in Hperm; discriminate.
    + inversion Hl as [|? ? Hsl Hx]; inversion Hl' as [|? ? Hsl' Hx']; subst.
      rewrite Forall_forall in Hx, Hx'.
      assert (x = x') as <-.
      { assert (Hin : In x' (x :: l))
          by (eapply Permutation_in; [apply Permutation_sym; exact Hperm | now left]).
        assert (Hin' : In x (x' :: l'))
          by (eapply Permutation_in; [exact Hperm | now left]).
        destruct Hin as [E|Hin]; [exact E|].
        destruct Hin' as [E|Hin']; [now symmetry|].
        apply Hanti; simpl; auto. }
      f_equal. apply IH; auto.
      * intros a b Ha Hb. apply Hanti; now right.
      * eapply Permutation_cons_inv; exact Hperm.
Qed.

End ArrayFacts.

(** ** Lists *)

Lemma filter_all {A} (l : list A) : filter (fun _ => true) l = l.
Proof. induction l as [|x l IH]; simpl; [reflexivity | now rewrite IH]. Qed.

Lemma filter_none {A} (f : A -> bool) (l : list A) :
  forallb (fun x => negb (f x)) l = true -> filter f l = [].
Proof.
  induction l as [|x l IH]; simpl; [reflexivity|].
  intros H. apply andb_true_iff in H as [Hx Hl].
  apply negb_true_iff in Hx. rewrite Hx. now apply IH.
Qed.

Lemma Permutation_filter {A} (f : A -> bool) (l l' : list A) :
  Permutation l l' -> Permutation (filter f l) (filter f l').
Proof.
  induction 1 as [| x l l' _ IH | x y l | l l' l'' _ IH1 _ IH2]; simpl.
  - constructor.
  - destruct (f x); [now constructor | exact IH].
  - destruct (f x), (f y); try apply Permutation_refl. apply perm_swap.
  - eapply Permutation_trans; eassumption.
Qed.

Lemma insert_ext {A} (c c' : A -> A -> Z) x l :
  (forall y, In y l -> c x y = c' x y) -> insert c x l = insert c' x l.
Proof.
  induction l as [|y l IH]; simpl; intros H; [reflexivity|].
  rewrite (H y (or_introl eq_refl)).
  destruct (c' x y <=? 0); [reflexivity|].
  now rewrite IH by (intros; apply H; now right).
Qed.

Lemma sort_ext {A} (c c' : A -> A -> Z) l :
  (forall a b, In a l -> In b l -> c a b = c' a b) -> sort c l = sort c' l.
Proof.
  induction l as [|x l IH]; simpl; intros H; [reflexivity|].
  rewrite IH by (intros; apply H; now right).
  apply insert_ext. intros y Hy. apply H; [now left | right].
  eapply Permutation_in; [apply sort_perm | exact Hy].
Qed.

Lemma StronglySorted_impl {A} (R R' : A -> A -> Prop) l :
  (forall a b, In a l -> In b l -> R a b -> R' a b) ->
  StronglySorted R l -> StronglySorted R' l.
Proof.
  intros HR; induction 1 as [|x l Hl IH Hx]; constructor.
  - apply IH. intros a b Ha Hb. apply HR; now right.
  - rewrite Forall_forall in Hx |- *. intros y Hy.
    apply HR; [now left | now right | auto].
Qed.

(** ** Strings *)

Lemma append_assoc (a b c : string) : (a ++ b) ++ c = a ++ b ++ c.
Proof. induction a as [|x a IH]; simpl; [reflexivity | now rewrite IH]. Qed.

Lemma append_nil_r (a : string) : a ++ "" = a.
Proof. induction a as [|x a IH]; simpl; [reflexivity | now rewrite IH]. Qed.

Lemma occurrences_app (c : ascii) (a b : string) :
  occurrences c (a ++ b) = (occurrences c a + occurrences c b)%nat.
Proof. induction a as [|x a IH]; simpl; [reflexivity | rewrite IH; lia]. Qed.

(** ** The host *)

Lemma lookup_height name entries c :
  lookup name entries = Some c -> (height c < height (Dir entries))%nat.
Proof.
  induction entries as [|[n c0] entries IH]; simpl; intros H; [discriminate|].
  destruct (String.eqb n name).
  - inversion H; subst; lia.
  - specialize (IH H). simpl in IH. lia.
Qed.

Lemma lookup_listed name entries :
  In name (map fst entries) -> exists c, lookup name entries = Some c.
Proof.
  induction entries as [|[n c0] entries IH]; simpl; intros H; [contradiction|].
  destruct (String.eqb n name) eqn:E; [eauto|].
  destruct H as [H|H]; [|auto].
  subst. rewrite String.eqb_refl in E. discriminate.
Qed.

Lemma resolve_join root p name :
  resolve root (join p name) =
  match resolve root p with
  | Some (Dir entries) => lookup name entries
  | _ => None
  end.
Proof.
  unfold join. revert root; induction p as [|x p IH]; intros root; simpl.
  - destruct root; try reflexivity. now destruct (lookup name entries).
  - destruct root; try reflexivity.
    destruct (lookup x entries); [apply IH | reflexivity].
Qed.

Lemma readdirSync_Dir root p items :
  readdirSync root p = Normal items ->
  exists entries, resolve root p = Some (Dir entries) /\ items = map fst entries.
Proof.
  unfold readdirSync. destruct (resolve root p) as [[| entries | |]|]; try discriminate.
  intros H; inversion H; eauto.
Qed.

Lemma heightAt_child root p items item :
  readdirSync root p = Normal items -> In item items ->
  (heightAt root (join p item) < heightAt root p)%nat.
Proof.
  intros H Hin. destruct (readdirSync_Dir _ _ _ H) as (entries & Hr & ->).
  unfold heightAt. rewrite resolve_join, Hr.
  destruct (lookup_listed _ _ Hin) as [c Hc]. rewrite Hc.
  exact (lookup_height _ _ _ Hc).
Qed.

(** ** The builder *)

Section BuilderFacts.

Variable localeCompare : string -> string -> Z.
Variable root : node.
Variable showFiles : bool.
Variable useAscii : bool.
Variable maxDepth : Z.

Local Abbreviation build := (buildTree localeCompare root showFiles useAscii maxDepth).
Local Abbreviation sortedItems := (sortedItemsOf localeCompare root showFiles).
Local Abbreviation stat := (statSync_isDirectory root).

Lemma compareItems_called p a b c :
  compareItems localeCompare root p a b = Normal c ->
  statable root p a /\ statable root p b.
Proof.
  unfold compareItems, statable.
  destruct (stat (join p a)) as [x|]; simpl; [|discriminate].
  destruct (stat (join p b)) as [y|]; simpl; [|discriminate].
  eauto.
Qed.

Lemma compareItems_pure p a b :
  statable root p a -> statable root p b ->
  compareItems localeCompare root p a b = Normal (orderOf localeCompare root p a b).
Proof.
  unfold compareItems, orderOf, statable, isDir. intros [x ->] [y ->]; simpl.
  destruct (x && negb y); [reflexivity|].
  now destruct (negb x && y).
Qed.

Lemma keepItem_pure p item :
  statable root p item ->
  keepItem root showFiles p item = Normal (keeps root showFiles p item).
Proof.
  unfold keepItem, keeps, statable, isDir. intros [x ->].
  now destruct (negb showFiles).
Qed.

(** Where every entry can be stat-ed, [sortedItems] is the sort of the
    filtered enumeration. *)
Lemma sortedItems_pure p items :
  readdirSync root p = Normal items ->
  Forall (statable root p) items ->
  sortedItems p
  = Normal (sort (orderOf localeCompare root p) (filter (keeps root showFiles p) items)).
Proof.
  intros Hread HF. rewrite Forall_forall in HF.
  unfold sortedItemsOf. rewrite Hread. simpl.
  rewrite (filterC_pure _ (keeps root showFiles p))
    by (intros x Hx; apply keepItem_pure; auto).
  simpl. apply sortC_pure. intros a b Ha Hb.
  apply compareItems_pure; apply HF; eapply filter_In; eassumption.
Qed.

(** What is displayed was enumerated. *)
Lemma sortedItems_listed p l :
  sortedItems p = Normal l ->
  exists items kept,
    readdirSync root p = Normal items
    /\ filterC (keepItem root showFiles p) items = Normal kept
    /\ Permutation l kept /\ incl l items.
Proof.
  unfold sortedItemsOf.
  destruct (readdirSync root p) as [items|]; simpl; [|discriminate].
  destruct (filterC (keepItem root showFiles p) items) as [kept|] eqn:Ef;
    simpl; [|discriminate].
  intros Hs. exists items, kept. repeat split; auto.
  - eapply sortC_perm; eassumption.
  - intros x Hx. eapply filterC_incl; [eassumption|].
    eapply Permutation_in; [eapply sortC_perm; eassumption | exact Hx].
Qed.

(** With two or more entries on display, the sort has stat-ed each. *)
Lemma sortedItems_statable p l :
  sortedItems p = Normal l -> (2 <= List.length l)%nat ->
  Forall (statable root p) l.
Proof.
  intros Hs Hlen.
  destruct (sortedItems_listed _ _ Hs) as (items & kept & _ & _ & Hperm & _).
  unfold sortedItemsOf in Hs.
  destruct (readdirSync root p) as [items'|]; simpl in Hs; [|discriminate].
  destruct (filterC (keepItem root showFiles p) items') as [kept'|];
    simpl in Hs; [|discriminate].
  pose proof (sortC_perm _ _ _ Hs) as Hp.
  rewrite Forall_forall. intros x Hx.
  assert (HF : Forall (statable root p) kept').
  { eapply sortC_compared; [| exact Hs |].
    - intros a b c. apply compareItems_called.
    - rewrite <- (Permutation_length Hp). exact Hlen. }
  rewrite Forall_forall in HF. apply HF.
  eapply Permutation_in; [exact Hp | exact Hx].
Qed.

Lemma statAll_normal p l :
  Forall (statable root p) l ->
  statAll root p l = Normal (map (fun item => (item, isDir root p item)) l).
Proof.
  induction 1 as [|item l [b Hb] _ IH]; simpl; [reflexivity|].
  unfold isDir at 1. rewrite Hb, IH. reflexivity.
Qed.

Lemma statAll_inv p l es :
  statAll root p l = Normal es ->
  Forall (statable root p) l
  /\ es = map (fun item => (item, isDir root p item)) l.
Proof.
  revert es; induction l as [|item l IH]; simpl; intros es H.
  - inversion H; subst; split; [constructor | reflexivity].
  - destruct (stat (join p item)) as [b|] eqn:Eb; simpl in H; [|discriminate].
    destruct (statAll root p l) as [r|]; simpl in H; [|discriminate].
    inversion H; subst; clear H.
    destruct (IH r eq_refl) as [HF ->].
    split.
    + constructor; [exists b; exact Eb | exact HF].
    + unfold isDir at 2. now rewrite Eb.
Qed.

Lemma forEach_some callback items :
  (forall result item index, In item items ->
     exists c w, callback result item index = Some (c, w)) ->
  forall index result, exists c w, forEach callback items index result = Some (c, w).
Proof.
  induction items as [|item items IH]; simpl; intros H index result.
  - unfold ret; eauto.
  - destruct (H result item index (or_introl eq_refl)) as (c & w & ->).
    destruct c as [r|m]; simpl; [|eauto].
    destruct (IH (fun r i k Hi => H r i k (or_intror Hi)) (S index) r)
      as (c' & w' & ->).
    eauto.
Qed.

(** The builder returns, and never by an exception, once the fuel exceeds
    the height of the directory. *)
Lemma buildTree_total fuel :
  forall p prefix isLast depth,
    (heightAt root p < fuel)%nat ->
    exists s w, build fuel p prefix isLast depth = Some (Normal s, w).
Proof.
  induction fuel as [|fuel IH]; intros p prefix isLast depth Hfuel; [lia|].
  simpl. destruct (pruned maxDepth depth); [unfold ret; eauto|].
  destruct (sortedItems p) as [l|m] eqn:El; simpl; [|eauto].
  destruct (sortedItems_listed _ _ El) as (items & kept & Hread & _ & _ & Hincl).
  destruct (forEach_some
              (processItem root useAscii (build fuel) p prefix depth (List.length l)) l)
    with (index := O) (result := "") as (c & w & ->).
  - intros result item index Hin. unfold processItem.
    destruct (stat (join p item)) as [[|]|m]; simpl; unfold ret; eauto.
    destruct (IH (join p item)
                (prefix ++ (if Nat.eqb index (List.length l - 1)
                            then space (symbols useAscii)
                            else vertical (symbols useAscii)))
                (Nat.eqb index (List.length l - 1)) (depth + 1))
      as (s & w & ->).
    { pose proof (heightAt_child _ _ _ _ Hread (Hincl _ Hin)). lia. }
    simpl. eauto.
  - destruct c; simpl; eauto.
Qed.

Lemma buildTree_pruned fuel p prefix isLast depth :
  pruned maxDepth depth = true ->
  build (S fuel) p prefix isLast depth = Some (Normal "", []).
Proof. intros H; simpl; now rewrite H. Qed.

Lemma listing_inv p es :
  listing localeCompare root showFiles p = Normal es ->
  exists l, sortedItems p = Normal l
            /\ Forall (statable root p) l
            /\ es = map (fun item => (item, isDir root p item)) l.
Proof.
  unfold listing. destruct (sortedItems p) as [l|]; simpl; [|discriminate].
  intros H. destruct (statAll_inv _ _ _ H). eauto.
Qed.

(** A failure of the host anywhere in the directory: one diagnostic that
    names the directory, and the empty string. *)
Lemma buildTree_throw fuel p prefix isLast depth m :
  pruned maxDepth depth = false ->
  listing localeCompare root showFiles p = Throw m ->
  build (S fuel) p prefix isLast depth = Some (Normal "", [(p, m)]).
Proof.
  intros Hp. unfold listing. simpl. rewrite Hp.
  destruct (sortedItems p) as [l|m'] eqn:El; simpl.
  - intros Hs.
    destruct l as [|item [|item' l]].
    + discriminate.
    + simpl in Hs. simpl. unfold processItem.
      destruct (stat (join p item)) as [b|m']; simpl in *; [discriminate|].
      now inversion Hs.
    + pose proof (sortedItems_statable _ _ El) as HF.
      rewrite (statAll_normal _ _ (HF ltac:(simpl; lia))) in Hs. discriminate.
  - intros H; now inversion H.
Qed.

Lemma forEach_rendered fuel p prefix depth n items l :
  readdirSync root p = Normal items ->
  (heightAt root p < S fuel)%nat ->
  incl l items -> Forall (statable root p) l ->
  forall index result,
    forEach (processItem root useAscii (build fuel) p prefix depth n) l index result
    = Some (Normal (result
                    ++ renderedFrom localeCompare root showFiles useAscii maxDepth
                         fuel p prefix depth n index
                         (map (fun item => (item, isDir root p item)) l)),
            printedFrom localeCompare root showFiles useAscii maxDepth
              fuel p prefix depth n index
              (map (fun item => (item, isDir root p item)) l)).
Proof.
  intros Hread Hfuel. induction l as [|item l IH]; intros Hincl HF index result; simpl.
  - now rewrite append_nil_r.
  - inversion HF as [|? ? [b Hb] HF']; subst.
    assert (Hd : isDir root p item = b) by (unfold isDir; now rewrite Hb).
    rewrite Hd. unfold processItem at 1. rewrite Hb. unfold subtree; simpl.
    destruct b.
    + destruct (buildTree_total fuel (join p item)
                  (prefix ++ (if Nat.eqb index (n - 1)
                              then space (symbols useAscii)
                              else vertical (symbols useAscii)))
                  (Nat.eqb index (n - 1)) (depth + 1))
        as (s & w & Hs).
      { pose proof (heightAt_child _ _ _ _ Hread (Hincl _ (or_introl eq_refl))). lia. }
      unfold childPrefix. rewrite Hs. simpl.
      rewrite IH by (auto; intros x Hx; apply Hincl; now right).
      simpl. unfold entryLine. rewrite !append_assoc, app_nil_r. reflexivity.
    + simpl. rewrite IH by (auto; intros x Hx; apply Hincl; now right).
      simpl. unfold entryLine. rewrite !append_assoc. reflexivity.
Qed.

(** A directory that is listed: every entry in display order, its line
    followed by the text of the call on it. *)
Lemma buildTree_rendered fuel p prefix isLast depth es :
  pruned maxDepth depth = false ->
  listing localeCompare root showFiles p = Normal es ->
  (heightAt root p < S fuel)%nat ->
  build (S fuel) p prefix isLast depth
  = Some (Normal (renderedFrom localeCompare root showFiles useAscii maxDepth
                    fuel p prefix depth (List.length es) O es),
          printedFrom localeCompare root showFiles useAscii maxDepth
            fuel p prefix depth (List.length es) O es).
Proof.
  intros Hp Hl Hfuel.
  destruct (listing_inv _ _ Hl) as (l & El & HF & ->).
  destruct (sortedItems_listed _ _ El) as (items & kept & Hread & _ & _ & Hincl).
  simpl. rewrite Hp, El. simpl.
  rewrite (forEach_rendered fuel p prefix depth (List.length l) items l
             Hread Hfuel Hincl HF O "").
  rewrite length_map. reflexivity.
Qed.

(** More fuel than needed changes nothing. *)
Lemma buildTree_fuel fuel :
  forall fuel' p prefix isLast depth,
    (heightAt root p < fuel)%nat -> (heightAt root p < fuel')%nat ->
    build fuel p prefix isLast depth = build fuel' p prefix isLast depth.
Proof.
  induction fuel as [|fuel IH]; intros fuel' p prefix isLast depth H H'; [lia|].
  destruct fuel' as [|fuel']; [lia|].
  destruct (pruned maxDepth depth) eqn:Hp.
  { now rewrite !buildTree_pruned. }
  destruct (listing localeCompare root showFiles p) as [es|m] eqn:Hl.
  2: { now rewrite !(buildTree_throw _ _ _ _ _ m Hp Hl). }
  rewrite !(buildTree_rendered _ _ _ _ _ es Hp Hl) by assumption.
  destruct (listing_inv _ _ Hl) as (l & El & _ & Hes).
  destruct (sortedItems_listed _ _ El) as (items & _ & Hread & _ & _ & Hincl).
  assert (Hsub : forall b e, In e es ->
            subtree localeCompare root showFiles useAscii maxDepth
              fuel p prefix depth b e
            = subtree localeCompare root showFiles useAscii maxDepth
                fuel' p prefix depth b e).
  { intros b e He. unfold subtree. destruct (snd e); [|reflexivity].
    subst es. apply in_map_iff in He as (item & <- & Hitem). simpl.
    pose proof (heightAt_child _ _ _ _ Hread (Hincl _ Hitem)).
    apply IH; lia. }
  clear Hl Hes. generalize (List.length es) O.
  induction es as [|e es IHes]; intros n index; simpl; [reflexivity|].
  rewrite (Hsub _ e (or_introl eq_refl)).
  specialize (IHes (fun b e' He' => Hsub b e' (or_intror He')) n (S index)).
  inversion IHes as [[Ho Hw]]. now rewrite Ho, Hw.
Qed.


End BuilderFacts.

(** * The claims *)

Section Claims.

Variable localeCompare : string -> string -> Z.
Variable root : node.
Variable showFiles : bool.
Variable useAscii : bool.
Variable maxDepth : Z.

Local Abbreviation build := (buildTree localeCompare root showFiles useAscii maxDepth).
Local Abbreviation rendered :=
  (renderedFrom localeCompare root showFiles useAscii maxDepth).
Local Abbreviation printed :=
  (printedFrom localeCompare root showFiles useAscii maxDepth).

Lemma pruned_beyond depth :
  maxDepth <> -1 -> maxDepth < depth -> pruned maxDepth depth = true.
Proof.
  intros Hne Hlt. unfold pruned. apply andb_true_iff; split.
  - now apply negb_true_iff, Z.eqb_neq.
  - now apply Z.gtb_lt.
Qed.

Lemma pruned_within depth :
  depth <= maxDepth -> pruned maxDepth depth = false.
Proof.
  intros Hle. unfold pruned. apply andb_false_iff; right.
  rewrite Z.gtb_ltb. now apply Z.ltb_ge.
Qed.

(** Below a directory at the limit every call is pruned. *)
Lemma rendered_at_limit fuel p prefix depth n :
  0 <= maxDepth -> depth = maxDepth ->
  forall es index,
    rendered fuel p prefix depth n index es = linesFrom useAscii prefix n index es
    /\ printed fuel p prefix depth n index es = [].
Proof.
  intros Hmax Hd.
  assert (Hp : pruned maxDepth (depth + 1) = true)
    by (apply pruned_beyond; lia).
  assert (Hsub : forall b e, subtree localeCompare root showFiles useAscii maxDepth
                               fuel p prefix depth b e = None
                             \/ subtree localeCompare root showFiles useAscii maxDepth
                                  fuel p prefix depth b e = Some (Normal "", [])).
  { intros b [name [|]]; unfold subtree; simpl; [|now right].
    destruct fuel; [now left | right]. now apply buildTree_pruned. }
  induction es as [|e es IH]; intros index; simpl; [now split|].
  destruct (IH (S index)) as [-> ->].
  destruct (Hsub (Nat.eqb index (n - 1)) e) as [-> | ->]; simpl; now split.
Qed.

(** C2. With a limit [maxDepth >= 0], a directory reached at a depth up
    to the limit has every entry of its listing emitted (the root's
    children are depth 0); at the limit itself the output is these lines
    and nothing from below them; a call deeper than the limit returns no
    line.  With the sentinel -1 a listed directory is rendered at every
    depth. *)
Theorem maxDepth_inclusive fuel p prefix isLast depth es :
  listing localeCompare root showFiles p = Normal es ->
  (heightAt root p < S fuel)%nat ->
  (0 <= maxDepth ->
     (depth <= maxDepth ->
        build (S fuel) p prefix isLast depth
        = Some (Normal (rendered fuel p prefix depth (List.length es) O es),
                printed fuel p prefix depth (List.length es) O es))
     /\ (depth = maxDepth ->
           build (S fuel) p prefix isLast depth
           = Some (Normal (linesFrom useAscii prefix (List.length es) O es), []))
     /\ (maxDepth < depth ->
           build (S fuel) p prefix isLast depth = Some (Normal "", [])))
  /\ (maxDepth = -1 ->
        build (S fuel) p prefix isLast depth
        = Some (Normal (rendered fuel p prefix depth (List.length es) O es),
                printed fuel p prefix depth (List.length es) O es)).
Proof.
  intros Hl Hfuel.
  assert (Hlisted : pruned maxDepth depth = false ->
            build (S fuel) p prefix isLast depth
            = Some (Normal (rendered fuel p prefix depth (List.length es) O es),
                    printed fuel p prefix depth (List.length es) O es)).
  { intros Hp. now apply buildTree_rendered. }
  split; [intros Hmax; repeat split|].
  - intros Hd. apply Hlisted. now apply pruned_within.
  - intros Hd. rewrite Hlisted by (apply pruned_within; lia).
    destruct (rendered_at_limit fuel p prefix depth (List.length es) Hmax Hd es O)
      as [-> ->]. reflexivity.
  - intros Hd. apply buildTree_pruned. apply pruned_beyond; lia.
  - intros ->. apply Hlisted. reflexivity.
Qed.

(** C4. In a listed directory every entry, in display order, contributes
    the line [prefix + connector + name] with ['/'] appended exactly for a
    directory, the connector being the corner glyph for the last entry of
    the sibling list and the branch glyph for every other; a directory
    entry is followed by the text of the call on it at [depth + 1] under
    the prefix extended by the space glyph when it is last, by the vertical
    glyph otherwise. *)
Theorem line_format fuel p prefix isLast depth es :
  pruned maxDepth depth = false ->
  listing localeCompare root showFiles p = Normal es ->
  (heightAt root p < S fuel)%nat ->
  build (S fuel) p prefix isLast depth
  = Some (Normal (rendered fuel p prefix depth (List.length es) O es),
          printed fuel p prefix depth (List.length es) O es)
  /\ (forall n index e rest,
        rendered fuel p prefix depth n index (e :: rest)
        = (prefix
           ++ (if Nat.eqb index (n - 1)
               then corner (symbolsFor useAscii) else branch (symbolsFor useAscii))
           ++ fst e ++ (if snd e then "/" else "") ++ nl)
          ++ outputOf
               (if snd e
                then build fuel (join p (fst e))
                       (prefix ++ (if Nat.eqb index (n - 1)
                                   then space (symbolsFor useAscii)
                                   else vertical (symbolsFor useAscii)))
                       (Nat.eqb index (n - 1)) (depth + 1)
                else ret "")
          ++ rendered fuel p prefix depth n (S index) rest)
  /\ (forall n index, rendered fuel p prefix depth n index [] = "").
Proof.
  intros Hp Hl Hfuel. split; [|split; reflexivity].
  now apply buildTree_rendered.
Qed.

(** C9. A negative [maxDepth] other than the sentinel prunes the first
    call: the builder returns the empty string at depth 0 whatever the
    directory holds, and the body of the tree has no line. *)
Theorem negative_maxDepth_renders_nothing fuel p prefix isLast :
  maxDepth <= -2 ->
  build (S fuel) p prefix isLast 0 = Some (Normal "", [])
  /\ treeStructure localeCompare root showFiles useAscii maxDepth
     = Some (Normal "", [])
  /\ countLines (outputOf (treeStructure localeCompare root showFiles useAscii maxDepth))
     = O.
Proof.
  intros Hmax.
  assert (Hp : pruned maxDepth 0 = true) by (apply pruned_beyond; lia).
  unfold treeStructure. rewrite !buildTree_pruned by exact Hp.
  repeat split.
Qed.

(** C10. The [isLast] argument of the builder has no influence on what it
    returns or prints. *)
Theorem isLast_is_ignored fuel p prefix depth :
  buildTree localeCompare root showFiles useAscii maxDepth fuel p prefix true depth
  = buildTree localeCompare root showFiles useAscii maxDepth fuel p prefix false depth.
Proof. destruct fuel; reflexivity. Qed.

(** C7. Where the entries of a directory can be stat-ed: without
    [showFiles] the displayed entries are exactly the enumerated
    directories, every file is dropped, and a directory that holds only
    files emits no line; with [showFiles] they are all the enumerated
    entries. *)
Theorem showFiles_filter p items :
  readdirSync root p = Normal items ->
  Forall (statable root p) items ->
  exists l,
    sortedItemsOf localeCompare root showFiles p = Normal l
    /\ (showFiles = false -> Permutation l (filter (isDir root p) items))
    /\ (showFiles = true -> Permutation l items)
    /\ (showFiles = false ->
        forallb (fun item => negb (isDir root p item)) items = true ->
        l = []
        /\ forall fuel prefix isLast depth,
             build (S fuel) p prefix isLast depth = Some (Normal "", [])).
Proof.
  intros Hread HF.
  pose proof (sortedItems_pure localeCompare root showFiles p items Hread HF) as Hs.
  eexists; split; [exact Hs|].
  repeat split.
  - intros ->. unfold keeps; simpl. apply sort_perm.
  - intros ->. unfold keeps; simpl.
    eapply Permutation_trans; [apply sort_perm|]. now rewrite filter_all.
  - subst showFiles. unfold keeps; simpl. now rewrite filter_none.
  - intros fuel prefix isLast depth. subst showFiles.
    unfold keeps in Hs; simpl in Hs. rewrite filter_none in Hs by assumption.
    simpl. destruct (pruned maxDepth depth); [reflexivity|].
    rewrite Hs. reflexivity.
Qed.

Lemma countLines_entryLine prefix isLastSibling name isDirectory :
  countLines prefix = O -> countLines name = O ->
  countLines (entryLine useAscii prefix isLastSibling name isDirectory) = 1%nat.
Proof.
  unfold countLines, entryLine. intros Hp Hn.
  rewrite !occurrences_app, Hp, Hn.
  now destruct useAscii, isLastSibling, isDirectory.
Qed.

Lemma countLines_rendered fuel p prefix depth n :
  countLines prefix = O ->
  forall es index,
    Forall (fun e => countLines (fst e) = O) es ->
    countLines (rendered fuel p prefix depth n index es)
    = (List.length es
       + subtreeLines localeCompare root showFiles useAscii maxDepth
           fuel p prefix depth n index es)%nat.
Proof.
  intros Hp. induction es as [|e es IH]; intros index HF; simpl; [reflexivity|].
  inversion HF as [|? ? He HF']; subst.
  unfold countLines in *. rewrite !occurrences_app.
  fold (countLines (entryLine useAscii prefix (Nat.eqb index (n - 1)) (fst e) (snd e))).
  rewrite countLines_entryLine by assumption.
  rewrite (IH (S index) HF'). lia.
Qed.

(** C6, amended.  For a directory whose enumeration and stats succeed, with
    a prefix and entry names free of line terminators: the text returned for
    it has no line when the call is pruned by the depth limit, and otherwise
    as many lines as entries survived the filter plus the lines returned for
    the directory children. *)
Theorem line_count fuel p prefix isLast depth items kept es :
  readdirSync root p = Normal items ->
  filterC (keepItem root showFiles p) items = Normal kept ->
  listing localeCompare root showFiles p = Normal es ->
  (heightAt root p < S fuel)%nat ->
  countLines prefix = O ->
  Forall (fun item => countLines item = O) items ->
  exists text printedText,
    build (S fuel) p prefix isLast depth = Some (Normal text, printedText)
    /\ countLines text
       = if pruned maxDepth depth then O
         else (List.length kept
               + subtreeLines localeCompare root showFiles useAscii maxDepth
                   fuel p prefix depth (List.length es) O es)%nat.
Proof.
  intros Hread Hkept Hl Hfuel Hprefix Hnames.
  destruct (pruned maxDepth depth) eqn:Hp.
  { rewrite buildTree_pruned by exact Hp. now exists "", []. }
  rewrite (buildTree_rendered _ _ _ _ _ fuel p prefix isLast depth es Hp Hl Hfuel).
  eexists; eexists; split; [reflexivity|].
  destruct (listing_inv _ _ _ _ _ Hl) as (l & El & _ & ->).
  destruct (sortedItems_listed _ _ _ _ _ El)
    as (items' & kept' & Hread' & Hkept' & Hperm & Hincl).
  rewrite Hread in Hread'. inversion Hread'; subst items'.
  rewrite Hkept in Hkept'. inversion Hkept'; subst kept'.
  rewrite countLines_rendered; [| exact Hprefix |].
  - rewrite length_map, (Permutation_length Hperm). reflexivity.
  - rewrite Forall_forall in Hnames |- *. intros e He.
    apply in_map_iff in He as (item & <- & Hitem). simpl. auto.
Qed.


Lemma drawn_app s names prefix a b :
  drawn s names prefix a -> drawn s names prefix b -> drawn s names prefix (a ++ b).
Proof.
  induction 1 as [|prefix connector indent name suffix below rest
                    Hc Hi Hs Hn Hbelow _ Hrest IH]; intros Hb; [exact Hb|].
  rewrite !append_assoc. apply drawn_entry with (indent := indent); auto.
Qed.

Lemma drawn_line s names prefix connector indent name suffix below :
  connector = corner s \/ connector = branch s ->
  indent = space s \/ indent = vertical s ->
  suffix = "/" \/ suffix = "" ->
  names name ->
  drawn s names (prefix ++ indent) below ->
  drawn s names prefix ((prefix ++ connector ++ name ++ suffix ++ nl) ++ below).
Proof.
  intros Hc Hi Hs Hn Hbelow.
  rewrite <- (append_nil_r below), !append_assoc.
  apply drawn_entry with (indent := indent); auto. constructor.
Qed.

Lemma forEach_drawn fuel p prefix depth n items l :
  readdirSync root p = Normal items ->
  (forall q pre last d,
      drawn (symbolsFor useAscii) (listedName root) pre
        (outputOf (build fuel q pre last d))) ->
  incl l items ->
  forall index result r w,
    drawn (symbolsFor useAscii) (listedName root) prefix result ->
    forEach (processItem root useAscii (build fuel) p prefix depth n) l index result
    = Some (Normal r, w) ->
    drawn (symbolsFor useAscii) (listedName root) prefix r.
Proof.
  intros Hread IHfuel. induction l as [|item l IH]; simpl;
    intros Hincl index result r w Hres H.
  - now inversion H; subst.
  - assert (Hname : listedName root item)
      by (exists p, items; split; [exact Hread | apply Hincl; now left]).
    assert (Hincl' : incl l items) by (intros x Hx; apply Hincl; now right).
    unfold processItem at 1 in H.
    destruct (statSync_isDirectory root (join p item)) as [[|]|m]; simpl in H.
    + specialize (IHfuel (join p item)
                    (prefix ++ (if Nat.eqb index (n - 1)
                                then space (symbols useAscii)
                                else vertical (symbols useAscii)))
                    (Nat.eqb index (n - 1)) (depth + 1)).
      destruct (build fuel (join p item) _ _ _) as [[[sub|m] w1]|];
        simpl in H; try discriminate.
      destruct (forEach _ l (S index) _) as [[c w2]|] eqn:Ef; [|discriminate].
      inversion H; subst c. eapply IH; [exact Hincl' | | exact Ef].
      rewrite append_assoc. apply drawn_app; [exact Hres|].
      refine (drawn_line _ _ prefix _
                (if Nat.eqb index (n - 1)
                 then space (symbols useAscii) else vertical (symbols useAscii))
                item "/" sub _ _ _ Hname IHfuel);
        unfold symbols; destruct (Nat.eqb index (n - 1)); auto.
    + destruct (forEach _ l (S index) _) as [[c w2]|] eqn:Ef; [|discriminate].
      inversion H; subst c. eapply IH; [exact Hincl' | | exact Ef].
      apply drawn_app; [exact Hres|].
      rewrite <- (append_nil_r (prefix ++ _)).
      refine (drawn_line _ _ prefix _ (space (symbols useAscii)) item "" "" _ _ _
                Hname (drawn_nothing _ _ _));
        unfold symbols; destruct (Nat.eqb index (n - 1)); auto.
    + discriminate.
Qed.

Lemma buildTree_drawn fuel :
  forall p prefix isLast depth,
    drawn (symbolsFor useAscii) (listedName root) prefix
      (outputOf (build fuel p prefix isLast depth)).
Proof.
  induction fuel as [|fuel IH]; intros p prefix isLast depth; simpl; [constructor|].
  destruct (pruned maxDepth depth); [constructor|].
  destruct (sortedItemsOf localeCompare root showFiles p) as [l|m] eqn:El; simpl;
    [|constructor].
  destruct (sortedItems_listed _ _ _ _ _ El) as (items & _ & Hread & _ & _ & Hincl).
  destruct (forEach _ l O "") as [[[r|m] w]|] eqn:Ef; simpl; try constructor.
  eapply forEach_drawn; [exact Hread | exact IH | exact Hincl | | exact Ef].
  constructor.
Qed.

Lemma foreignTo_absent c :
  foreignTo useAscii c = true ->
  occurrences c (corner (symbolsFor useAscii)) = O
  /\ occurrences c (branch (symbolsFor useAscii)) = O
  /\ occurrences c (space (symbolsFor useAscii)) = O
  /\ occurrences c (vertical (symbolsFor useAscii)) = O
  /\ occurrences c "/" = O
  /\ occurrences c nl = O.
Proof.
  destruct useAscii; destruct c as [[] [] [] [] [] [] [] []];
    vm_compute; intros H; try discriminate H; repeat split.
Qed.

Lemma drawn_absent c names prefix text :
  foreignTo useAscii c = true ->
  (forall name, names name -> occurrences c name = O) ->
  drawn (symbolsFor useAscii) names prefix text ->
  occurrences c prefix = O -> occurrences c text = O.
Proof.
  intros Hc Hnames.
  destruct (foreignTo_absent c Hc) as (Hco & Hbr & Hsp & Hve & Hsl & Hnl).
  induction 1 as [|prefix connector indent name suffix below rest
                    Hcon Hind Hsuf Hn _ IHbelow _ IHrest]; intros Hp;
    [reflexivity|].
  rewrite !occurrences_app, Hp, (Hnames _ Hn), Hnl, IHrest by exact Hp.
  rewrite IHbelow
    by (rewrite occurrences_app, Hp; destruct Hind as [-> | ->]; now rewrite ?Hsp, ?Hve).
  destruct Hcon as [-> | ->]; destruct Hsuf as [-> | ->];
    now rewrite ?Hco, ?Hbr, ?Hsl.
Qed.

(** C8. The glyphs are the two documented sets, selected by [useAscii]
    alone.  Every call of one render returns text drawn with the selected
    set: each line carries a connector of that set after a prefix extended
    only by indents of that set.  So a character only the other set has
    appears in the text of a call only where an entry name (or the caller's
    prefix) supplies it. *)
Theorem glyph_sets_never_mix :
  symbolsFor true
  = {| vertical := "|   "; branch := "|-- "; corner := "\-- "; space := "    " |}
  /\ symbolsFor false
     = {| vertical := "│   "; branch := "├── "; corner := "└── "; space := "    " |}
  /\ symbols useAscii = symbolsFor useAscii
  /\ (forall fuel p prefix isLast depth,
        (heightAt root p < fuel)%nat ->
        exists text printedText,
          build fuel p prefix isLast depth = Some (Normal text, printedText)
          /\ drawn (symbolsFor useAscii) (listedName root) prefix text
          /\ (forall c,
                foreignTo useAscii c = true ->
                (forall name, listedName root name -> occurrences c name = O) ->
                occurrences c prefix = O ->
                occurrences c text = O)).
Proof.
  repeat split.
  intros fuel p prefix isLast depth Hfuel.
  destruct (buildTree_total localeCompare root showFiles useAscii maxDepth
              fuel p prefix isLast depth Hfuel) as (text & printedText & Hb).
  pose proof (buildTree_drawn fuel p prefix isLast depth) as Hd.
  rewrite Hb in Hd. simpl in Hd.
  exists text, printedText. repeat split; [exact Hb | exact Hd |].
  intros c Hc Hnames Hp.
  eapply drawn_absent; [exact Hc | exact Hnames | exact Hd | exact Hp].
Qed.

End Claims.

(** ** The order of the display *)

Section DisplayOrder.

Variable localeCompare : string -> string -> Z.

Lemma collatesOn_spec names :
  collatesOn localeCompare names = true ->
  forall a b, In a names -> In b names ->
    (localeCompare a b <= 0 \/ localeCompare b a <= 0)
    /\ (localeCompare a b <= 0 -> localeCompare b a <= 0 -> a = b)
    /\ (forall c, In c names ->
          localeCompare a b <= 0 -> localeCompare b c <= 0 -> localeCompare a c <= 0).
Proof.
  unfold collatesOn. rewrite forallb_forall. intros H a b Ha Hb.
  specialize (H a Ha). rewrite forallb_forall in H. specialize (H b Hb).
  apply andb_true_iff in H as [H Htrans]. apply andb_true_iff in H as [Htot Hanti].
  split; [|split].
  - apply orb_true_iff in Htot as [H|H]; apply Z.leb_le in H; auto.
  - intros Hab Hba. apply Z.leb_le in Hab, Hba. rewrite Hab, Hba in Hanti.
    simpl in Hanti. now apply String.eqb_eq.
  - intros c Hc Hab Hbc. rewrite forallb_forall in Htrans.
    specialize (Htrans c Hc). apply Z.leb_le in Hab, Hbc.
    rewrite Hab, Hbc in Htrans. simpl in Htrans. now apply Z.leb_le.
Qed.

Variable root : node.
Variable p : path.

Lemma orderOf_displayedBefore a b :
  orderOf localeCompare root p a b <= 0 <-> displayedBefore localeCompare root p a b.
Proof.
  unfold orderOf, displayedBefore.
  destruct (isDir root p a), (isDir root p b); simpl; split; intros H;
    try lia; try tauto; try (now left); try (right; split; [reflexivity | exact H]).
Qed.

(** On names the collator orders totally, so does the comparator. *)
Lemma orderOf_total names :
  collatesOn localeCompare names = true ->
  forall a b, In a names -> In b names ->
    orderOf localeCompare root p a b <= 0 \/ orderOf localeCompare root p b a <= 0.
Proof.
  intros Hc a b Ha Hb. destruct (collatesOn_spec names Hc a b Ha Hb) as (Htot & _ & _).
  unfold orderOf. destruct (isDir root p a), (isDir root p b); simpl; auto; lia.
Qed.

Lemma orderOf_trans names :
  collatesOn localeCompare names = true ->
  forall a b c, In a names -> In b names -> In c names ->
    orderOf localeCompare root p a b <= 0 -> orderOf localeCompare root p b c <= 0 ->
    orderOf localeCompare root p a c <= 0.
Proof.
  intros Hc a b c Ha Hb Hcn.
  destruct (collatesOn_spec names Hc a b Ha Hb) as (_ & _ & Htrans).
  specialize (Htrans c Hcn). unfold orderOf.
  destruct (isDir root p a), (isDir root p b), (isDir root p c); simpl; auto; lia.
Qed.

Lemma orderOf_antisym names :
  collatesOn localeCompare names = true ->
  forall a b, In a names -> In b names ->
    orderOf localeCompare root p a b <= 0 -> orderOf localeCompare root p b a <= 0 ->
    a = b.
Proof.
  intros Hc a b Ha Hb. destruct (collatesOn_spec names Hc a b Ha Hb) as (_ & Hanti & _).
  unfold orderOf. destruct (isDir root p a), (isDir root p b); simpl; auto; lia.
Qed.

End DisplayOrder.

(** C1, amended.  Two enumerations of the same entries of a directory, in any two
    orders, are displayed in one and the same order: the surviving entries
    with all directories before all files and the entries of one kind in the
    order of the collator.  (The entries can be stat-ed, and the collator
    orders their names totally.) *)
Theorem display_order_is_deterministic
    (localeCompare : string -> string -> Z) (root root' : node) (showFiles : bool)
    (p : path) (items items' : list string) :
  readdirSync root p = Normal items ->
  readdirSync root' p = Normal items' ->
  Permutation items items' ->
  (forall item, In item items ->
     exists b, statSync_isDirectory root (join p item) = Normal b
               /\ statSync_isDirectory root' (join p item) = Normal b) ->
  collatesOn localeCompare items = true ->
  exists l,
    sortedItemsOf localeCompare root showFiles p = Normal l
    /\ sortedItemsOf localeCompare root' showFiles p = Normal l
    /\ Permutation l (filter (keeps root showFiles p) items)
    /\ StronglySorted (displayedBefore localeCompare root p) l.
Proof.
  intros Hread Hread' Hperm Hstat Hcoll.
  assert (HF : Forall (statable root p) items).
  { rewrite Forall_forall. intros x Hx. destruct (Hstat x Hx) as (b & Hb & _).
    now exists b. }
  assert (HF' : Forall (statable root' p) items').
  { rewrite Forall_forall. intros x Hx.
    destruct (Hstat x (Permutation_in _ (Permutation_sym Hperm) Hx)) as (b & _ & Hb).
    now exists b. }
  assert (Hd : forall x, In x items -> isDir root' p x = isDir root p x).
  { intros x Hx. destruct (Hstat x Hx) as (b & Hb & Hb').
    unfold isDir. now rewrite Hb, Hb'. }
  pose proof (sortedItems_pure localeCompare root showFiles p items Hread HF) as Hs.
  pose proof (sortedItems_pure localeCompare root' showFiles p items' Hread' HF') as Hs'.
  set (kept := filter (keeps root showFiles p) items) in *.
  set (kept' := filter (keeps root' showFiles p) items') in *.
  assert (Hkept : forall x, In x kept -> In x items)
    by (intros x Hx; apply filter_In in Hx; tauto).
  assert (Hk : kept' = filter (keeps root showFiles p) items').
  { apply filter_ext_in. intros x Hx. unfold keeps.
    rewrite Hd by (eapply Permutation_in; [apply Permutation_sym; exact Hperm | exact Hx]).
    reflexivity. }
  assert (Hpk : Permutation kept kept')
    by (rewrite Hk; now apply Permutation_filter).
  assert (Hkept' : forall x, In x kept' -> In x items)
    by (intros x Hx; apply Hkept;
        eapply Permutation_in; [apply Permutation_sym; exact Hpk | exact Hx]).
  assert (Ho : sort (orderOf localeCompare root' p) kept'
               = sort (orderOf localeCompare root p) kept').
  { apply sort_ext. intros a b Ha Hb. unfold orderOf.
    now rewrite !Hd by auto. }
  rewrite Ho in Hs'.
  assert (Hsorted : forall k, (forall x, In x k -> In x items) ->
            StronglySorted (fun a b => orderOf localeCompare root p a b <= 0)
              (sort (orderOf localeCompare root p) k)).
  { intros k Hin. apply sort_sorted.
    - intros a b Ha Hb. apply (orderOf_total localeCompare root p items); auto.
    - intros a b c Ha Hb Hc. apply (orderOf_trans localeCompare root p items); auto. }
  assert (Heq : sort (orderOf localeCompare root p) kept
                = sort (orderOf localeCompare root p) kept').
  { apply sorted_unique with (le := fun a b => orderOf localeCompare root p a b <= 0).
    - intros a b Ha Hb. apply (orderOf_antisym localeCompare root p items); auto;
        apply Hkept; (eapply Permutation_in; [apply sort_perm | eassumption]).
    - now apply Hsorted.
    - now apply Hsorted.
    - eapply Permutation_trans; [apply sort_perm|].
      eapply Permutation_trans; [exact Hpk | apply Permutation_sym, sort_perm]. }
  exists (sort (orderOf localeCompare root p) kept). repeat split.
  - exact Hs.
  - now rewrite Heq.
  - apply sort_perm.
  - eapply StronglySorted_impl; [| apply Hsorted; exact Hkept].
    intros a b _ _. apply orderOf_displayedBefore.
Qed.

(** * Runs *)

Lemma display_order_is_deterministic_witness :
  (exists l,
     sortedItemsOf En.localeCompare (Dir fourEntries) true [] = Normal l
     /\ sortedItemsOf En.localeCompare (Dir (rev fourEntries)) true [] = Normal l
     /\ Permutation l (filter (keeps (Dir fourEntries) true []) (map fst fourEntries))
     /\ StronglySorted (displayedBefore En.localeCompare (Dir fourEntries) []) l)
  /\ treeStructure En.localeCompare (Dir fourEntries) true false (-1)
     = Some (Normal (unlines ["├── A/"; "├── B/"; "├── a.txt"; "└── b.txt"]), [])
  /\ treeStructure En.localeCompare (Dir (rev fourEntries)) true false (-1)
     = Some (Normal (unlines ["├── A/"; "├── B/"; "├── a.txt"; "└── b.txt"]), []).
Proof.
  split; [|split; vm_compute; reflexivity].
  apply (display_order_is_deterministic En.localeCompare
           (Dir fourEntries) (Dir (rev fourEntries)) true []
           (map fst fourEntries) (rev (map fst fourEntries))).
  - reflexivity.
  - reflexivity.
  - apply Permutation_rev.
  - intros item [<-|[<-|[<-|[<-|[]]]]]; eexists; split; reflexivity.
  - vm_compute; reflexivity.
Defined.

(** C1 as stated fails for names the collator does not tell apart: it
    returns 0 for the precomposed and the decomposed [é.txt], the sort is
    stable, and the two names are displayed in the order of the
    enumeration. *)
Lemma equal_names_follow_the_enumeration :
  precomposedName <> decomposedName
  /\ canonicalCompare precomposedName decomposedName = 0
  /\ canonicalCompare decomposedName precomposedName = 0
  /\ sortedItemsOf canonicalCompare
       (Dir [(precomposedName, File); (decomposedName, File)]) true []
     = Normal [precomposedName; decomposedName]
  /\ sortedItemsOf canonicalCompare
       (Dir [(decomposedName, File); (precomposedName, File)]) true []
     = Normal [decomposedName; precomposedName]
  /\ treeStructure canonicalCompare
       (Dir [(precomposedName, File); (decomposedName, File)]) true true (-1)
     <> treeStructure canonicalCompare
          (Dir [(decomposedName, File); (precomposedName, File)]) true true (-1).
Proof.
  split; [intros H; discriminate H|].
  repeat split; try (vm_compute; reflexivity).
  vm_compute. intros H. discriminate H.
Qed.

Lemma maxDepth_inclusive_witness :
  treeStructure En.localeCompare nested true false 0
  = Some (Normal (unlines ["└── sub/"]), [])
  /\ treeStructure En.localeCompare nested true false (-1)
     = Some (Normal (unlines ["└── sub/"; "    └── x"]), []).
Proof.
  split.
  - destruct (maxDepth_inclusive En.localeCompare nested true false 0
                2 [] "" true 0 [("sub", true)] eq_refl (le_n 3)) as [H _].
    destruct (H ltac:(lia)) as (_ & Hlimit & _). exact (Hlimit eq_refl).
  - destruct (maxDepth_inclusive En.localeCompare nested true false (-1)
                2 [] "" true 0 [("sub", true)] eq_refl (le_n 3)) as [_ H].
    exact (H eq_refl).
Defined.



Lemma line_format_witness :
  treeStructure En.localeCompare nested true true (-1)
  = Some (Normal ("\-- sub/" ++ nl ++ "    \-- x" ++ nl), []).
Proof.
  destruct (line_format En.localeCompare nested true true (-1)
              2 [] "" true 0 [("sub", true)] eq_refl eq_refl (le_n 3)) as [H _].
  exact H.
Defined.

(** C5 as stated fails: the builder sorts [public] before [src] and
    [Footer.js] before [Header.js], so its text is not the sample. *)
Lemma documented_sample_is_not_rendered :
  treeStructure En.localeCompare myApp true false (-1)
  = Some (Normal renderedSample, [])
  /\ renderedSample <> documentedSample.
Proof.
  split; [vm_compute; reflexivity|].
  vm_compute. intros H. discriminate H.
Qed.

(** C5, amended.  For [my-app/] with [showFiles], the Unicode glyphs and no
    depth limit the builder returns the lines of the sample in the order of
    its sort: [public/] before [src/], [Footer.js] before [Header.js],
    directories before files. *)
Theorem sample_rendering :
  treeStructure En.localeCompare myApp true false (-1)
  = Some (Normal renderedSample, []).
Proof. vm_compute. reflexivity. Qed.

(** C6 as stated fails on a pruned directory: under [maxDepth = 0] the
    render lists [sub/] and calls the builder on it at depth 1; that call
    returns no line although the one entry of [sub] survives the filter. *)
Lemma line_count_fails_when_pruned :
  treeStructure En.localeCompare nested true false 0
  = Some (Normal (unlines ["└── sub/"]), [])
  /\ readdirSync nested ["sub"] = Normal ["x"]
  /\ filterC (keepItem nested true ["sub"]) ["x"] = Normal ["x"]
  /\ listing En.localeCompare nested true ["sub"] = Normal [("x", false)]
  /\ countLines (outputOf (buildTree En.localeCompare nested true false 0
                             2 ["sub"] "    " true 1))
     <> (List.length ["x"]
         + subtreeLines En.localeCompare nested true false 0
             1 ["sub"] "    " 1 1 O [("x", false)])%nat.
Proof. repeat split. vm_compute. intros H. discriminate H. Qed.

Lemma line_count_witness :
  (exists text printedText,
     treeStructure En.localeCompare myApp true false (-1) = Some (Normal text, printedText)
     /\ countLines text
        = (4 + subtreeLines En.localeCompare myApp true false (-1) 3 [] "" 0 4 O
                 [("public", true); ("src", true);
                  ("package.json", false); ("README.md", false)])%nat)
  /\ (exists text printedText,
        buildTree En.localeCompare nested true false 0 2 ["sub"] "    " true 1
        = Some (Normal text, printedText)
        /\ countLines text = O).
Proof.
  split.
  - apply (line_count En.localeCompare myApp true false (-1) 3 [] "" true 0
             ["src"; "public"; "package.json"; "README.md"]
             ["src"; "public"; "package.json"; "README.md"]
             [("public", true); ("src", true);
              ("package.json", false); ("README.md", false)]).
    + reflexivity.
    + reflexivity.
    + vm_compute; reflexivity.
    + apply le_n.
    + reflexivity.
    + repeat constructor.
  - apply (line_count En.localeCompare nested true false 0 1 ["sub"] "    " true 1
             ["x"] ["x"] [("x", false)]).
    + reflexivity.
    + reflexivity.
    + reflexivity.
    + apply le_n.
    + reflexivity.
    + repeat constructor.
Defined.

Lemma showFiles_filter_witness :
  sortedItemsOf En.localeCompare onlyFiles false [] = Normal []
  /\ (forall fuel prefix isLast depth,
        buildTree En.localeCompare onlyFiles false true 0 (S fuel) [] prefix isLast depth
        = Some (Normal "", []))
  /\ exists l, sortedItemsOf En.localeCompare myApp true [] = Normal l
               /\ Permutation l ["src"; "public"; "package.json"; "README.md"].
Proof.
  destruct (showFiles_filter En.localeCompare onlyFiles false true 0 [] ["a.txt"; "b.txt"])
    as (l & Hs & _ & _ & Hfiles).
  - reflexivity.
  - repeat constructor; eexists; reflexivity.
  - destruct (Hfiles eq_refl eq_refl) as [-> Hnone].
    split; [exact Hs | split; [exact Hnone|]].
    destruct (showFiles_filter En.localeCompare myApp true false (-1) []
                ["src"; "public"; "package.json"; "README.md"])
      as (l & Hs' & _ & Hall & _).
    + reflexivity.
    + repeat constructor; eexists; reflexivity.
    + exists l. split; [exact Hs' | exact (Hall eq_refl)].
Defined.

Lemma nested_names name : listedName nested name -> name = "sub" \/ name = "x".
Proof.
  intros (p & items & Hread & Hin). unfold readdirSync, nested in Hread.
  destruct p as [|a [|b rest]]; cbn [resolve lookup] in Hread.
  - inversion Hread; subst. destruct Hin as [<-|[]]. now left.
  - destruct (String.eqb "sub" a); [|discriminate].
    inversion Hread; subst. destruct Hin as [<-|[]]. now right.
  - destruct (String.eqb "sub" a); cbn [resolve lookup] in Hread; [|discriminate].
    destruct (String.eqb "x" b); cbn [resolve lookup] in Hread; [|discriminate].
    destruct rest; discriminate.
Qed.

Lemma glyph_sets_never_mix_witness :
  exists text printedText,
    treeStructure En.localeCompare nested true false (-1) = Some (Normal text, printedText)
    /\ drawn (symbolsFor false) (listedName nested) "" text
    /\ occurrences "|" text = O
    /\ occurrences "\" text = O.
Proof.
  destruct (glyph_sets_never_mix En.localeCompare nested true false (-1))
    as (_ & _ & _ & H).
  destruct (H 3%nat [] "" true 0 (le_n 3)) as (text & printedText & Hb & Hd & Hscan).
  exists text, printedText. repeat split; [exact Hb | exact Hd | |].
  - apply Hscan; [reflexivity | | reflexivity].
    intros name Hn. destruct (nested_names name Hn) as [-> | ->]; reflexivity.
  - apply Hscan; [reflexivity | | reflexivity].
    intros name Hn. destruct (nested_names name Hn) as [-> | ->]; reflexivity.
Defined.

Lemma negative_maxDepth_renders_nothing_witness :
  buildTree En.localeCompare myApp true false (-2) 1 [] "" true 0 = Some (Normal "", [])
  /\ treeStructure En.localeCompare myApp true false (-2) = Some (Normal "", [])
  /\ countLines (outputOf (treeStructure En.localeCompare myApp true false (-2))) = O.
Proof.
  apply (negative_maxDepth_renders_nothing En.localeCompare myApp true false (-2)
           0 [] "" true).
  lia.
Defined.

(** Runs of the remaining examples of the claims. *)

Example only_files_without_showFiles :
  treeStructure En.localeCompare onlyFiles false false (-1) = Some (Normal "", []).
Proof. reflexivity. Qed.

(** * The rest of the code *)

(** ** Strings again *)


Lemma endsWith_refl (s : string) : endsWith s s = true.
Proof. destruct s; cbn [endsWith]; now rewrite String.eqb_refl. Qed.

Lemma endsWith_app_l (a s suffix : string) :
  endsWith s suffix = true -> endsWith (a ++ s) suffix = true.
Proof.
  intros H; induction a as [|c a IH]; cbn [append endsWith]; [exact H|].
  destruct (String.eqb _ suffix); [reflexivity | exact IH].
Qed.

Lemma endsWith_app_r (a suffix : string) : endsWith (a ++ suffix) suffix = true.
Proof. apply endsWith_app_l, endsWith_refl. Qed.

Lemma endsWith_inv (s suffix : string) :
  endsWith s suffix = true -> exists a, s = a ++ suffix.
Proof.
  induction s as [|c s IH]; cbn [endsWith].
  - destruct (String.eqb "" suffix) eqn:E; [|discriminate].
    apply String.eqb_eq in E. intros _. now exists "".
  - destruct (String.eqb (String c s) suffix) eqn:E.
    + apply String.eqb_eq in E. intros _. now exists "".
    + intros H. destruct (IH H) as [a ->]. now exists (String c a).
Qed.


Lemma startsWith_app (a b : string) : startsWith (a ++ b) a = true.
Proof.
  unfold startsWith. induction a as [|c a IH]; simpl; [now destruct b|].
  destruct (ascii_dec c c); [exact IH | congruence].
Qed.



Lemma replaceBackslashes_app (a b : string) :
  replaceBackslashes (a ++ b) = replaceBackslashes a ++ replaceBackslashes b.
Proof. induction a as [|c a IH]; simpl; [reflexivity | now rewrite IH]. Qed.

Lemma replaceBackslashes_clean (s : string) :
  occurrences backslash (replaceBackslashes s) = O.
Proof.
  induction s as [|c s IH]; simpl; [reflexivity|].
  rewrite IH. destruct (Ascii.eqb c backslash) eqn:E; [reflexivity|].
  now rewrite E.
Qed.

Lemma replaceBackslashes_id (s : string) :
  occurrences backslash s = O -> replaceBackslashes s = s.
Proof.
  induction s as [|c s IH]; simpl; [reflexivity|].
  destruct (Ascii.eqb c backslash); [discriminate|].
  simpl. intros H. now rewrite IH.
Qed.

(** ** [getModuleFilename] and [isMainModule] *)

(** X1. Whatever [process.argv[1]] is, the script name starts with
    [file:///], ends with [.js] and holds no backslash. *)
Theorem getModuleFilename_shape (argv1 : string) :
  startsWith (getModuleFilename argv1) "file:///" = true
  /\ endsWith (getModuleFilename argv1) ".js" = true
  /\ occurrences backslash (getModuleFilename argv1) = O.
Proof.
  unfold getModuleFilename.
  set (r := replaceBackslashes argv1).
  assert (Hr : occurrences backslash r = O) by apply replaceBackslashes_clean.
  set (r' := if negb (endsWith r ".js") then r ++ ".js" else r).
  assert (He : endsWith r' ".js" = true).
  { unfold r'. destruct (endsWith r ".js") eqn:E; simpl;
      [exact E | apply endsWith_app_r]. }
  assert (Hc : occurrences backslash r' = O).
  { unfold r'. destruct (negb (endsWith r ".js")); [|exact Hr].
    now rewrite occurrences_app, Hr. }
  destruct (startsWith r' "file:///") eqn:Es; cbv [negb].
  - auto.
  - repeat split.
    + apply (startsWith_app "file:///" r').
    + apply endsWith_app_l. exact He.
    + now rewrite occurrences_app, Hc.
Qed.

(** X2. Computing the script name of a script name changes nothing. *)
Theorem getModuleFilename_idempotent (argv1 : string) :
  getModuleFilename (getModuleFilename argv1) = getModuleFilename argv1.
Proof.
  destruct (getModuleFilename_shape argv1) as (Hs & He & Hc).
  unfold getModuleFilename at 1.
  rewrite (replaceBackslashes_id _ Hc), He. simpl. now rewrite Hs.
Qed.



(** X4. For an [argv[1]] that ends with [.js] and is no URL, the module
    URL [file:///] followed by the path with its backslashes turned into
    slashes (a Windows path with a drive letter) is the script name, and the
    module is taken for the main one. *)
Theorem isMainModule_windows (argv1 : string) :
  endsWith argv1 ".js" = true ->
  startsWith (replaceBackslashes argv1) "file:///" = false ->
  getModuleFilename argv1 = "file:///" ++ replaceBackslashes argv1
  /\ isMainModule ("file:///" ++ replaceBackslashes argv1) argv1 = true.
Proof.
  intros He Hs.
  assert (Hg : getModuleFilename argv1 = "file:///" ++ replaceBackslashes argv1).
  { unfold getModuleFilename.
    destruct (endsWith_inv _ _ He) as [a ->].
    rewrite replaceBackslashes_app in *.
    change (replaceBackslashes ".js") with ".js" in *.
    rewrite endsWith_app_r. cbv [negb]. now rewrite Hs. }
  split; [exact Hg|].
  unfold isMainModule. rewrite Hg. apply endsWith_refl.
Qed.

Lemma isMainModule_windows_witness :
  getModuleFilename windowsScript = "file:///C:/tools/tree.js"
  /\ isMainModule "file:///C:/tools/tree.js" windowsScript = true.
Proof.
  apply (isMainModule_windows windowsScript); reflexivity.
Defined.

(** ** More on the builder *)

Lemma forEach_ext (f g : string -> string -> nat -> M string) items :
  (forall result item index, In item items -> f result item index = g result item index) ->
  forall index result, forEach f items index result = forEach g items index result.
Proof.
  induction items as [|item items IH]; intros H index result; simpl; [reflexivity|].
  rewrite (H result item index (or_introl eq_refl)).
  destruct (g result item index) as [[[r|m] w]|]; simpl; try reflexivity.
  now rewrite (IH (fun r i k Hi => H r i k (or_intror Hi))).
Qed.

Lemma forEach_printed (P : diagnostic -> Prop) callback items :
  (forall result item index c w,
     In item items -> callback result item index = Some (c, w) -> Forall P w) ->
  forall index result c w,
    forEach callback items index result = Some (c, w) -> Forall P w.
Proof.
  induction items as [|item items IH]; intros H index result c w; simpl.
  - intros E; inversion E; constructor.
  - destruct (callback result item index) as [[[r|m] w1]|] eqn:Ec; simpl;
      [| |discriminate].
    + destruct (forEach callback items (S index) r) as [[c2 w2]|] eqn:Ef;
        [|discriminate].
      intros E; inversion E; subst. apply Forall_app; split.
      * eapply H; [now left | exact Ec].
      * eapply (IH (fun r i k c w Hi => H r i k c w (or_intror Hi))); exact Ef.
    + intros E; inversion E; subst. eapply H; [now left | exact Ec].
Qed.

Lemma drawn_ends (s : symbolSet) names prefix text :
  drawn s names prefix text -> text = "" \/ endsWith text nl = true.
Proof.
  induction 1 as [|prefix connector indent name suffix below rest
                    _ _ _ _ _ IHbelow _ IHrest]; [now left | right].
  do 4 apply endsWith_app_l.
  destruct IHrest as [-> | Hrest].
  - rewrite append_nil_r. destruct IHbelow as [-> | Hbelow].
    + apply endsWith_refl.
    + now apply endsWith_app_l.
  - now do 2 apply endsWith_app_l.
Qed.

Section BuilderMore.

Variable localeCompare : string -> string -> Z.
Variable root : node.
Variable showFiles : bool.
Variable useAscii : bool.

(** X5. What the builder returns is empty or ends with a line terminator:
    no line is left open, and [console.log] of a tree that is not empty
    ends in an empty line. *)
Theorem buildTree_ends_with_newline maxDepth fuel p prefix isLast depth :
  (heightAt root p < fuel)%nat ->
  exists text printedText,
    buildTree localeCompare root showFiles useAscii maxDepth fuel p prefix isLast depth
    = Some (Normal text, printedText)
    /\ (text = "" \/ endsWith text nl = true).
Proof.
  intros Hfuel.
  destruct (buildTree_total localeCompare root showFiles useAscii maxDepth
              fuel p prefix isLast depth Hfuel) as (text & printedText & Hb).
  exists text, printedText. split; [exact Hb|].
  pose proof (buildTree_drawn localeCompare root showFiles useAscii maxDepth
                fuel p prefix isLast depth) as Hd.
  rewrite Hb in Hd. simpl in Hd. eapply drawn_ends; exact Hd.
Qed.

(** X6. A depth limit that leaves room for the whole height of a directory
    changes nothing: the call returns and prints what it does without
    limit. *)
Theorem deep_limit_is_no_limit maxDepth fuel :
  forall p prefix isLast depth,
    depth + Z.of_nat (heightAt root p) <= maxDepth ->
    buildTree localeCompare root showFiles useAscii maxDepth fuel p prefix isLast depth
    = buildTree localeCompare root showFiles useAscii (-1) fuel p prefix isLast depth.
Proof.
  induction fuel as [|fuel IH]; intros p prefix isLast depth Hroom; [reflexivity|].
  simpl.
  assert (Hp : pruned maxDepth depth = false).
  { unfold pruned. apply andb_false_iff; right.
    rewrite Z.gtb_ltb. apply Z.ltb_ge. lia. }
  rewrite Hp. change (pruned (-1) depth) with false. cbv iota.
  destruct (sortedItemsOf localeCompare root showFiles p) as [l|m] eqn:El;
    [|reflexivity].
  destruct (sortedItems_listed _ _ _ _ _ El) as (items & _ & Hread & _ & _ & Hincl).
  simpl. f_equal.
  rewrite (forEach_ext
             (processItem root useAscii
                (buildTree localeCompare root showFiles useAscii maxDepth fuel)
                p prefix depth (List.length l))
             (processItem root useAscii
                (buildTree localeCompare root showFiles useAscii (-1) fuel)
                p prefix depth (List.length l))); [reflexivity|].
  intros result item index Hin. unfold processItem.
  destruct (statSync_isDirectory root (join p item)) as [[|]|m]; try reflexivity.
  simpl. rewrite IH; [reflexivity|].
  pose proof (heightAt_child _ _ _ _ Hread (Hincl _ Hin)). lia.
Qed.

(** X7. Without a limit ([maxDepth = -1]) the [depth] argument has no
    influence on what the builder returns or prints. *)
Theorem depth_is_ignored_without_limit fuel :
  forall p prefix isLast depth depth',
    buildTree localeCompare root showFiles useAscii (-1) fuel p prefix isLast depth
    = buildTree localeCompare root showFiles useAscii (-1) fuel p prefix isLast depth'.
Proof.
  induction fuel as [|fuel IH]; intros p prefix isLast depth depth'; [reflexivity|].
  simpl. change (pruned (-1) depth) with false. change (pruned (-1) depth') with false.
  cbv iota.
  destruct (sortedItemsOf localeCompare root showFiles p) as [l|m]; [|reflexivity].
  simpl. f_equal.
  rewrite (forEach_ext
             (processItem root useAscii
                (buildTree localeCompare root showFiles useAscii (-1) fuel)
                p prefix depth (List.length l))
             (processItem root useAscii
                (buildTree localeCompare root showFiles useAscii (-1) fuel)
                p prefix depth' (List.length l))); [reflexivity|].
  intros result item index _. unfold processItem.
  destruct (statSync_isDirectory root (join p item)) as [[|]|m]; try reflexivity.
  simpl. now rewrite (IH _ _ _ (depth + 1) (depth' + 1)).
Qed.

(** X8. Every diagnostic a call prints names the directory of the call or
    a path below it. *)
Theorem diagnostics_stay_below maxDepth fuel :
  forall p prefix isLast depth c w,
    buildTree localeCompare root showFiles useAscii maxDepth fuel p prefix isLast depth
    = Some (c, w) ->
    Forall (fun d => exists q, fst d = (p ++ q)%list) w.
Proof.
  induction fuel as [|fuel IH]; intros p prefix isLast depth c w; simpl; [discriminate|].
  destruct (pruned maxDepth depth).
  { intros E; inversion E; constructor. }
  assert (Hhere : exists q, fst (p, "") = (p ++ q)%list)
    by (exists []; simpl; now rewrite app_nil_r).
  destruct (sortedItemsOf localeCompare root showFiles p) as [l|m]; simpl.
  2: { intros E; inversion E; subst. constructor; [|constructor].
       exists []. simpl. now rewrite app_nil_r. }
  destruct (forEach _ l O "") as [[c1 w1]|] eqn:Ef; [|discriminate].
  assert (Hw1 : Forall (fun d => exists q, fst d = (p ++ q)%list) w1).
  { eapply forEach_printed; [|exact Ef].
    intros result item index c2 w2 _. unfold processItem.
    destruct (statSync_isDirectory root (join p item)) as [[|]|m]; simpl.
    - destruct (buildTree _ _ _ _ _ fuel (join p item) _ _ _) as [[[s|m] w3]|] eqn:Eb;
        simpl; try discriminate.
      + intros E; inversion E; subst. rewrite app_nil_r.
        apply IH in Eb. eapply Forall_impl; [|exact Eb].
        intros d [q Hq]. exists (item :: q). rewrite Hq. unfold join.
        now rewrite <- app_assoc.
      + intros E; inversion E; subst.
        apply IH in Eb. eapply Forall_impl; [|exact Eb].
        intros d [q Hq]. exists (item :: q). rewrite Hq. unfold join.
        now rewrite <- app_assoc.
    - intros E; inversion E; constructor.
    - intros E; inversion E; constructor. }
  destruct c1 as [s|m]; simpl; intros E; inversion E; subst.
  - exact Hw1.
  - apply Forall_app; split; [exact Hw1|].
    constructor; [|constructor]. exists []. simpl. now rewrite app_nil_r.
Qed.

End BuilderMore.

Lemma deep_limit_is_no_limit_witness :
  treeStructure En.localeCompare myApp true false 3
  = treeStructure En.localeCompare myApp true false (-1)
  /\ treeStructure En.localeCompare myApp true false 3
     = Some (Normal renderedSample, []).
Proof.
  split; [|vm_compute; reflexivity].
  apply (deep_limit_is_no_limit En.localeCompare myApp true false 3 4 [] "" true 0). vm_compute. discriminate.
Defined.

Lemma buildTree_ends_with_newline_witness :
  exists text printedText,
    treeStructure En.localeCompare threeChildren true true (-1)
    = Some (Normal text, printedText)
    /\ (text = "" \/ endsWith text nl = true).
Proof.
  apply (buildTree_ends_with_newline En.localeCompare threeChildren true true (-1)
           3 [] "" true 0).
  apply le_n.
Defined.

Lemma diagnostics_stay_below_witness :
  Forall (fun d => exists q, fst d = (["locked"] ++ q)%list)
    [(["locked"], "EACCES: permission denied, scandir")]
  /\ Forall (fun d : diagnostic => exists q, fst d = ([] ++ q)%list)
       [(["locked"], "EACCES: permission denied, scandir")].
Proof.
  split.
  - apply (diagnostics_stay_below En.localeCompare threeChildren true false (-1)
             1 ["locked"] "" true 1 (Normal "")).
    reflexivity.
  - apply (diagnostics_stay_below En.localeCompare threeChildren true false (-1)
             3 [] "" true 0
             (Normal (unlines ["├── a/"; "│   └── x"; "├── locked/"; "└── z"]))).
    vm_compute. reflexivity.
Defined.

(** ** [tree] and its sink *)

Section TreeFacts.

Variable localeCompare : string -> string -> Z.
Variable path_resolve : string -> string.


(** X9. Where [dirPath] leads to nothing or to something that is no
    directory, [tree] prints one error and exits with status 1 before it
    touches the sink: no file is removed or written, nothing is printed on
    standard output. *)
Theorem tree_rejects_before_writing here dirPath options maxDepth w :
  (forall root, here = Some root -> isDirectoryNode root = false) ->
  snd (tree localeCompare path_resolve here dirPath options maxDepth w) = Exited 1
  /\ files (fst (tree localeCompare path_resolve here dirPath options maxDepth w))
     = files w
  /\ stdout (fst (tree localeCompare path_resolve here dirPath options maxDepth w))
     = stdout w
  /\ exists line,
       stderr (fst (tree localeCompare path_resolve here dirPath options maxDepth w))
       = (stderr w ++ [line])%list.
Proof.
  intros H. unfold tree. destruct here as [root|].
  - specialize (H root eq_refl).
    destruct (existsSync (Some root)); simpl; rewrite ?H; simpl; eauto 6.
  - simpl; eauto 6.
Qed.



End TreeFacts.

Lemma tree_rejects_before_writing_witness :
  tree En.localeCompare (fun p => p) (Some File) "notes.txt"
    {| optShowFiles := true; optUseAscii := false; optOutputFile := Some "out.txt" |}
    (-1) (oneFile "out.txt" "kept")
  = ({| files := files (oneFile "out.txt" "kept");
        stdout := [];
        stderr := [NotADirectory "notes.txt"] |}, Exited 1)
  /\ snd (tree En.localeCompare (fun p => p) None "gone"
            {| optShowFiles := true; optUseAscii := false; optOutputFile := Some "out.txt" |}
            (-1) (oneFile "out.txt" "kept")) = Exited 1.
Proof.
  split; [reflexivity|].
  apply (tree_rejects_before_writing En.localeCompare (fun p => p) None "gone").
  intros root H. discriminate H.
Defined.



(** ** The options of the command line *)

(** X12. What [parseCommandLineArgsWithUtil] hands to [tree]: a directory
    that is never the empty string (['.'] stands in), an output file that
    is [null] or a string that is not empty, [-o] before [--output], and a
    flag set exactly when its short or long form was given. *)
Theorem parsed_options_are_usable values positionals dirPath options :
  parseCommandLineArgsWithUtil values positionals = Some (dirPath, options) ->
  dirPath <> ""
  /\ sinkOf (optOutputFile options) = optOutputFile options
  /\ (forall file, val_o values = Some file -> file <> "" ->
        optOutputFile options = Some file)
  /\ (optShowFiles options = true
      <-> val_f values = Some true \/ val_files values = Some true)
  /\ (optUseAscii options = true
      <-> val_a values = Some true \/ val_ascii values = Some true).
Proof.
  unfold parseCommandLineArgsWithUtil.
  destruct (flagOrFalse (orFlag (val_h values) (val_help values))); [discriminate|].
  intros H; inversion H; subst; clear H. cbn [optOutputFile optShowFiles optUseAscii].
  split; [|split; [|split; [|split]]].
  - destruct positionals as [|first rest]; [discriminate|].
    destruct (String.eqb first "") eqn:E; [discriminate|].
    now apply String.eqb_neq in E.
  - unfold orString.
    destruct (val_o values) as [[|c o]|]; cbn [sinkOf];
      destruct (val_output values) as [[|c' o']|]; reflexivity.
  - intros file Ho Hfile. rewrite Ho. unfold orString.
    destruct file; [congruence | reflexivity].
  - destruct (val_f values) as [[|]|], (val_files values) as [[|]|]; simpl;
      split; intros H; try reflexivity; try discriminate; auto;
      destruct H as [H|H]; discriminate H.
  - destruct (val_a values) as [[|]|], (val_ascii values) as [[|]|]; simpl;
      split; intros H; try reflexivity; try discriminate; auto;
      destruct H as [H|H]; discriminate H.
Qed.

Lemma parsed_options_are_usable_witness :
  parseCommandLineArgsWithUtil
    {| val_f := None; val_files := Some true; val_a := None; val_ascii := None;
       val_o := Some ""; val_output := Some "out.txt"; val_h := None; val_help := None |}
    [""; "ignored"]
  = Some (".", {| optShowFiles := true; optUseAscii := false;
                  optOutputFile := Some "out.txt" |})
  /\ "." <> "".
Proof.
  split; [reflexivity|].
  apply (parsed_options_are_usable
           {| val_f := None; val_files := Some true; val_a := None; val_ascii := None;
              val_o := Some ""; val_output := Some "out.txt";
              val_h := None; val_help := None |}
           [""; "ignored"] "."
           {| optShowFiles := true; optUseAscii := false;
              optOutputFile := Some "out.txt" |}).
  reflexivity.
Defined.

(** ** The first [parseArgs] *)

Lemma legacy_loop_directory args :
  forall d0 sf0 ua0 d sf ua,
    Legacy.parseLoop args d0 sf0 ua0 = Legacy.Parsed d sf ua ->
    d = d0 \/ (In d args /\ Legacy.isOption d = false).
Proof.
  induction args as [|arg args IH]; intros d0 sf0 ua0 d sf ua; cbn [Legacy.parseLoop].
  - intros H; inversion H; now left.
  - destruct (Legacy.isOption arg) eqn:Eo.
    + destruct (String.eqb (Legacy.optionOf arg) "f").
      { intros H. destruct (IH _ _ _ _ _ _ H) as [->|[Hin Hd]]; [now left|].
        right; split; [now right | exact Hd]. }
      destruct (String.eqb (Legacy.optionOf arg) "a").
      { intros H. destruct (IH _ _ _ _ _ _ H) as [->|[Hin Hd]]; [now left|].
        right; split; [now right | exact Hd]. }
      destruct (_ || _ || _)%bool; discriminate.
    + destruct (_ || _)%bool; intros H;
        destruct (IH _ _ _ _ _ _ H) as [->|[Hin Hd]];
        try (now left); try (right; split; [now right | exact Hd]).
      right; split; [now left | exact Eo].
Qed.

(** X13. The directory the first [parseArgs] returns is ['.'] or an
    argument that starts neither with ['/'] nor with ['-']: a path that
    starts with ['/'], as an absolute POSIX path does, is never taken for
    the directory. *)
Theorem legacy_directory_is_no_option argv dirPath showFiles useAscii :
  Legacy.parseArgs argv = Legacy.Parsed dirPath showFiles useAscii ->
  dirPath = "."
  \/ (In dirPath (skipn 2 argv)
      /\ startsWith dirPath "/" = false /\ startsWith dirPath "-" = false).
Proof.
  intros H. destruct (legacy_loop_directory _ _ _ _ _ _ _ H) as [->|[Hin Hd]];
    [now left | right].
  unfold Legacy.isOption in Hd. apply orb_false_iff in Hd. tauto.
Qed.

Lemma legacy_directory_is_no_option_witness :
  Legacy.parseArgs ["node"; "tree.js"; "/F"; "src"; "--a"; "docs"]
  = Legacy.Parsed "src" true true
  /\ ("src" = "."
      \/ (In "src" ["/F"; "src"; "--a"; "docs"]
          /\ startsWith "src" "/" = false /\ startsWith "src" "-" = false)).
Proof.
  split; [reflexivity|].
  apply (legacy_directory_is_no_option
           ["node"; "tree.js"; "/F"; "src"; "--a"; "docs"] "src" true true).
  reflexivity.
Defined.

Lemma legacy_loop_flags args :
  forall d0 sf0 ua0,
    if forallb Legacy.accepted args
    then exists d,
           Legacy.parseLoop args d0 sf0 ua0
           = Legacy.Parsed d (sf0 || existsb (Legacy.selects "f") args)
               (ua0 || existsb (Legacy.selects "a") args)
    else forall d sf ua, Legacy.parseLoop args d0 sf0 ua0 <> Legacy.Parsed d sf ua.
Proof.
  induction args as [|arg args IH]; intros d0 sf0 ua0;
    cbn [forallb existsb Legacy.parseLoop].
  - exists d0. now rewrite !orb_false_r.
  - assert (Hf : Legacy.selects "f" arg
                 = Legacy.isOption arg && String.eqb (Legacy.optionOf arg) "f")
      by reflexivity.
    assert (Ha : Legacy.selects "a" arg
                 = Legacy.isOption arg && String.eqb (Legacy.optionOf arg) "a")
      by reflexivity.
    unfold Legacy.accepted at 1. rewrite Hf, Ha.
    destruct (Legacy.isOption arg); cbn [negb orb andb].
    + destruct (String.eqb (Legacy.optionOf arg) "f") eqn:Ef.
      { apply String.eqb_eq in Ef. rewrite Ef.
        change (String.eqb "f" "a") with false. cbn [orb andb].
        specialize (IH d0 true ua0).
        destruct (forallb Legacy.accepted args); [|exact IH].
        destruct IH as [d Hd]. exists d. rewrite Hd.
        now rewrite orb_true_r. }
      destruct (String.eqb (Legacy.optionOf arg) "a") eqn:Ea; cbn [orb andb].
      { specialize (IH d0 sf0 true).
        destruct (forallb Legacy.accepted args); [|exact IH].
        destruct IH as [d Hd]. exists d. rewrite Hd.
        now rewrite orb_true_r. }
      destruct (_ || _ || _)%bool; intros d sf ua H; discriminate H.
    + destruct (_ || _)%bool; apply IH.
Qed.

(** X14. The first [parseArgs] returns options exactly when every argument
    that starts with ['/'] or ['-'] reads [f] or [a] once lowered and
    stripped of slashes and dashes; then [showFiles] and [useAscii] tell
    whether some argument reads [f], respectively [a], in any order and any
    number of times.  Any other such argument, an absolute POSIX path for
    one, ends the run without options. *)
Theorem legacy_options argv :
  (forallb Legacy.accepted (skipn 2 argv) = true ->
   exists dirPath,
     Legacy.parseArgs argv
     = Legacy.Parsed dirPath
         (existsb (Legacy.selects "f") (skipn 2 argv))
         (existsb (Legacy.selects "a") (skipn 2 argv)))
  /\ (forallb Legacy.accepted (skipn 2 argv) = false ->
      forall dirPath showFiles useAscii,
        Legacy.parseArgs argv <> Legacy.Parsed dirPath showFiles useAscii).
Proof.
  pose proof (legacy_loop_flags (skipn 2 argv) "." false false) as H.
  unfold Legacy.parseArgs.
  destruct (forallb Legacy.accepted (skipn 2 argv)); split; intros E;
    try discriminate E; exact H.
Qed.

Lemma legacy_options_witness :
  (exists dirPath,
     Legacy.parseArgs ["node"; "tree.js"; "-A"; "src"; "//f"]
     = Legacy.Parsed dirPath true true)
  /\ (forall dirPath showFiles useAscii,
        Legacy.parseArgs ["node"; "tree.js"; "/home/user"]
        <> Legacy.Parsed dirPath showFiles useAscii)
  /\ Legacy.parseArgs ["node"; "tree.js"; "/home/user"]
     = Legacy.UnknownParameter "/home/user".
Proof.
  split; [|split; [|reflexivity]].
  - apply (proj1 (legacy_options ["node"; "tree.js"; "-A"; "src"; "//f"])).
    reflexivity.
  - apply (proj2 (legacy_options ["node"; "tree.js"; "/home/user"])).
    reflexivity.
Defined.
